(** * Sliding-window rate limiter: shallow embedding and verification

    The development follows the rate-limiter module of the server
    (initializeRateLimiter, checkRateLimit, checkRateLimitRedis,
    checkRateLimitMemory, resetRateLimit, getRateLimitStatus).

    Modelling conventions.
    - JavaScript numbers that the module handles (epoch milliseconds, weights,
      limits, window lengths) are integers; they are modelled as [Z].  NaN,
      infinities and fractional inputs are outside the model.
    - [Date.now()] is an explicit argument [now] of every operation and
      [Math.random()] an explicit argument [rnd].
    - The module-level variables [redisClient], [initialized] and
      [inMemoryStore] form the record [Limiter], threaded through every call.
    - A call either returns a value or throws: [Outcome].
    - The awaits of one call run to completion before the next call starts;
      interleavings of concurrent calls on the Redis path are not modelled. *)

From stdpp Require Import gmap strings list.
From Stdlib Require Import ZArith Lia Sorted.

Local Open Scope Z_scope.

(** ** Data model *)

(** An element of the arrays held by [inMemoryStore]. *)
Record Request := mkRequest { timestamp : Z; weight : Z }.

(** The object returned by the check functions; [retryAfter] is an optional
    field of the source type. *)
Record Decision := mkDecision {
  allowed : bool;
  remaining : Z;
  resetTime : Z;
  retryAfter : option Z
}.

Inductive Exn := TypeError | RedisError.

Inductive Outcome (A : Type) :=
  | Returned (a : A)
  | Threw (e : Exn).
Arguments Returned {A} a.
Arguments Threw {A} e.

(** [Math.ceil(x / d)] on integers, for a positive divisor. *)
Definition Math_ceil_div (x d : Z) : Z := - ((- x) / d).

(** [requests.reduce((sum, req) => sum + req.weight, 0)] *)
Definition sumWeights (requests : list Request) : Z :=
  fold_left (fun sum req => sum + weight req) requests 0.

(** [requests.filter((req) => req.timestamp > windowStart)] *)
Definition pruneRequests (windowStart : Z) (requests : list Request) : list Request :=
  List.filter (fun req => windowStart <? timestamp req) requests.

(** ** In-memory sliding window *)

Definition checkRateLimitMemory (inMemoryStore : gmap string (list Request))
    (key : string) (maxRequests windowMs weight' now : Z)
    : Outcome Decision * gmap string (list Request) :=
  let windowStart := now - windowMs in
  let requests := default [] (inMemoryStore !! key) in
  let requests := pruneRequests windowStart requests in
  let totalWeight := sumWeights requests in
  if maxRequests <? totalWeight + weight' then
    (* [requests[0]] is [undefined] on an empty array and reading its
       [timestamp] throws before the store is written *)
    match requests with
    | [] => (Threw TypeError, inMemoryStore)
    | oldestRequest :: _ =>
        let retryAfter' :=
          Math_ceil_div (windowMs - (now - timestamp oldestRequest)) 1000 in
        (Returned {| allowed := false;
                     remaining := 0;
                     resetTime := now + retryAfter' * 1000;
                     retryAfter := Some retryAfter' |},
         <[key := requests]> inMemoryStore)
    end
  else
    let requests := requests ++ [{| timestamp := now; weight := weight' |}] in
    (Returned {| allowed := true;
                 remaining := maxRequests - (totalWeight + weight');
                 resetTime := now + windowMs;
                 retryAfter := None |},
     <[key := requests]> inMemoryStore).

(** ** The Redis client

    The [redis] package is an external dependency.  The client object is
    modelled together with the server-side data it gives access to: the sorted
    sets, the time-to-live set on each key, and a fault schedule.  Every
    command sent to the server consumes the head of [faults]; [true] makes
    that command throw (connection lost, timeout), so every pattern of
    outages is a value of the schedule.  An exhausted schedule means a
    healthy connection.  A command that the client refuses to build, as
    [zAdd] does for an argument without [value], throws before anything is
    sent and leaves the schedule as it is.

    A sorted set is the list of its entries in rank order; a key without
    sorted set and a key with the empty list read the same.  The server
    removing a key when its time-to-live runs out is not modelled. *)

(** The member string [`${now}-${Math.random()}`]. *)
Record Member := mkMember { stamp : Z; salt : N }.

(** [parseInt] reads the leading integer of the member string. *)
Definition parseInt (m : Member) : Z := stamp m.

Record ZEntry := mkZEntry { score : Z; member : Member }.

Record RedisClientType := mkRedis {
  zsets : gmap string (list ZEntry);
  expiry : gmap string Z;
  faults : list bool
}.

Definition Cmd (A : Type) : Type := RedisClientType -> Outcome A * RedisClientType.

Definition ret {A} (a : A) : Cmd A := fun c => (Returned a, c).

Definition bind {A B} (m : Cmd A) (k : A -> Cmd B) : Cmd B :=
  fun c => match m c with
           | (Returned a, c') => k a c'
           | (Threw e, c') => (Threw e, c')
           end.

Notation "x <- m ;; k" := (bind m (fun x => k))
  (at level 100, m at next level, right associativity).

(** [try { body } catch (error) { handler }] *)
Definition try_catch {A} (body : Cmd A) (handler : Exn -> Cmd A) : Cmd A :=
  fun c => match body c with
           | (Returned a, c') => (Returned a, c')
           | (Threw e, c') => handler e c'
           end.

Definition set_faults (fs : list bool) (c : RedisClientType) : RedisClientType :=
  {| zsets := zsets c; expiry := expiry c; faults := fs |}.

(** Whether the next command fails, and the client once that command has
    used up its slot of the schedule. *)
Definition faulty (c : RedisClientType) : bool :=
  match faults c with
  | true :: _ => true
  | _ => false
  end.

Definition advance (c : RedisClientType) : RedisClientType :=
  set_faults (tail (faults c)) c.

(** One round trip: fails when the schedule says so, runs otherwise. *)
Definition command {A} (run : RedisClientType -> A * RedisClientType) : Cmd A :=
  fun c =>
    if faulty c then (Threw RedisError, advance c)
    else let (a, c') := run (advance c) in (Returned a, c').

Definition zset_of (c : RedisClientType) (k : string) : list ZEntry :=
  default [] (zsets c !! k).

Definition set_zset (k : string) (zs : list ZEntry) (c : RedisClientType) : RedisClientType :=
  {| zsets := <[k := zs]> (zsets c); expiry := expiry c; faults := faults c |}.

(** Sorted insertion by score, after the entries of equal score. *)
Fixpoint zinsert (e : ZEntry) (zs : list ZEntry) : list ZEntry :=
  match zs with
  | [] => [e]
  | z :: zs' => if score e <? score z then e :: zs else z :: zinsert e zs'
  end.

Definition same_member (a b : Member) : bool :=
  (stamp a =? stamp b) && (salt a =? salt b)%N.

(** [ZREMRANGEBYSCORE key -inf max]: both bounds are inclusive. *)
Definition zRemRangeByScore (k : string) (max : Z) : Cmd Z :=
  command (fun c =>
    let zs := zset_of c k in
    let kept := List.filter (fun e => max <? score e) zs in
    (Z.of_nat (length zs) - Z.of_nat (length kept), set_zset k kept c)).

(** [ZCARD key] *)
Definition zCard (k : string) : Cmd Z :=
  command (fun c => (Z.of_nat (length (zset_of c k)), c)).

(** [ZRANGE key start stop] by rank, for non-negative ranks. *)
Definition zRange (k : string) (start stop : nat) : Cmd (list Member) :=
  command (fun c =>
    (map member (take (S stop - start) (drop start (zset_of c k))), c)).

(** The object literal given to [zAdd].  The client reads its properties
    [score] and [value]; it knows no property [member].  A property that the
    literal does not write is [undefined], here [None]. *)
Record ZAddArgument := mkZAddArgument {
  score_property : Z;
  value_property : option Member;
  member_property : option Member
}.

(** [client.zAdd(key, { score, value })].  The client builds the command
    from [score] and [value].  With [value] undefined the command has an
    undefined argument and the client throws a TypeError when it encodes
    it: nothing is sent.  Otherwise [ZADD key score value]: an existing
    member is moved to its new score. *)
Definition zAdd (k : string) (a : ZAddArgument) : Cmd Z :=
  match value_property a with
  | None => fun c => (Threw TypeError, c)
  | Some value =>
      command (fun c =>
        let e := {| score := score_property a; member := value |} in
        let zs := zset_of c k in
        let others := List.filter (fun z => negb (same_member (member z) value)) zs in
        (Z.of_nat (S (length others)) - Z.of_nat (length zs),
         set_zset k (zinsert e others) c))
  end.

(** [EXPIRE key seconds]: only an existing key gets a time-to-live. *)
Definition expire (k : string) (seconds : Z) : Cmd bool :=
  command (fun c =>
    match zset_of c k with
    | [] => (false, c)
    | _ :: _ => (true, {| zsets := zsets c;
                          expiry := <[k := seconds]> (expiry c);
                          faults := faults c |})
    end).

(** [DEL key] *)
Definition del (k : string) : Cmd Z :=
  command (fun c =>
    (match zset_of c k with [] => 0 | _ :: _ => 1 end,
     {| zsets := delete k (zsets c);
        expiry := delete k (expiry c);
        faults := faults c |})).

(** [QUIT] *)
Definition quit : Cmd unit := command (fun c => (tt, c)).

(** The key [`ratelimit:${key}`]. *)
Definition redisKeyOf (key : string) : string := "ratelimit:" +:+ key.

(** ** Redis sliding window *)

Definition failOpen (maxRequests windowMs now : Z) : Decision :=
  {| allowed := true;
     remaining := maxRequests;
     resetTime := now + windowMs;
     retryAfter := None |}.

(** The body of the [try] block. *)
Definition checkRateLimitRedis_try (key : string)
    (maxRequests windowMs weight' now : Z) (rnd : N) : Cmd Decision :=
  let redisKey := redisKeyOf key in
  let windowStart := now - windowMs in
  _ <- zRemRangeByScore redisKey windowStart ;;
  count <- zCard redisKey ;;
  let currentWeight := count in (* [count || 0] *)
  if maxRequests <? currentWeight + weight' then
    oldest <- zRange redisKey 0 0 ;;
    let retryAfter' :=
      match oldest with
      | [] => 0
      | m :: _ =>
          let oldestTime := parseInt m in
          Math_ceil_div (windowMs - (now - oldestTime)) 1000
      end in
    _ <- expire redisKey (Math_ceil_div windowMs 1000) ;;
    ret {| allowed := false;
           remaining := 0;
           resetTime := now + retryAfter' * 1000;
           retryAfter := Some retryAfter' |}
  else
    (* the literal is [{ score: now, member: `${now}-${Math.random()}` }] *)
    _ <- zAdd redisKey {| score_property := now;
                          value_property := None;
                          member_property := Some {| stamp := now; salt := rnd |} |} ;;
    _ <- expire redisKey (Math_ceil_div windowMs 1000) ;;
    ret {| allowed := true;
           remaining := maxRequests - (currentWeight + weight');
           resetTime := now + windowMs;
           retryAfter := None |}.

Definition checkRateLimitRedis (key : string)
    (maxRequests windowMs weight' now : Z) (rnd : N) : Cmd Decision :=
  try_catch (checkRateLimitRedis_try key maxRequests windowMs weight' now rnd)
            (fun _ => ret (failOpen maxRequests windowMs now)).

(** ** Module state and public functions *)

Record Limiter := mkLimiter {
  redisClient : option RedisClientType;
  initialized : bool;
  inMemoryStore : gmap string (list Request)
}.

(** The state of a freshly loaded module. *)
Definition freshLimiter : Limiter :=
  {| redisClient := None; initialized := false; inMemoryStore := ∅ |}.

(** The test [if (process.env.REDIS_URL)]: the variable is set and is not
    the empty string. *)
Definition isSet (variable : option string) : bool :=
  match variable with
  | Some v => negb (bool_decide (v = ""))
  | None => false
  end.

(** [initializeRateLimiter]: [redisUrl] is [process.env.REDIS_URL] and
    [connect] the result of parsing the URL, creating the client and
    awaiting its connection ([None] when one of them throws). *)
Definition initializeRateLimiter (redisUrl : option string)
    (connect : option RedisClientType) (l : Limiter) : Limiter :=
  if initialized l then l
  else if isSet redisUrl then
    {| redisClient := connect;
       initialized := true;
       inMemoryStore := inMemoryStore l |}
  else
    {| redisClient := redisClient l;
       initialized := true;
       inMemoryStore := inMemoryStore l |}.

(** The defaults of the source signature (100 requests, 60000 ms, weight 1)
    are filled in by the caller. *)
Definition checkRateLimit (l : Limiter) (key : string)
    (maxRequests windowMs weight' now : Z) (rnd : N)
    : Outcome Decision * Limiter :=
  match redisClient l with
  | Some client =>
      let (r, client') :=
        checkRateLimitRedis key maxRequests windowMs weight' now rnd client in
      (r, {| redisClient := Some client';
             initialized := initialized l;
             inMemoryStore := inMemoryStore l |})
  | None =>
      let (r, store') :=
        checkRateLimitMemory (inMemoryStore l) key maxRequests windowMs weight' now in
      (r, {| redisClient := None;
             initialized := initialized l;
             inMemoryStore := store' |})
  end.

Definition resetRateLimit (l : Limiter) (key : string) : Outcome unit * Limiter :=
  match redisClient l with
  | Some client =>
      let (r, client') := del (redisKeyOf key) client in
      (match r with Returned _ => Returned tt | Threw e => Threw e end,
       {| redisClient := Some client';
          initialized := initialized l;
          inMemoryStore := inMemoryStore l |})
  | None =>
      (Returned tt,
       {| redisClient := None;
          initialized := initialized l;
          inMemoryStore := delete key (inMemoryStore l) |})
  end.

(** The object [{ currentUsage, timestamp }]. *)
Record Status := mkStatus { currentUsage : Z; statusTimestamp : Z }.

Definition getRateLimitStatus (l : Limiter) (key : string) (now : Z)
    : Outcome Status * Limiter :=
  match redisClient l with
  | Some client =>
      let (r, client') := zCard (redisKeyOf key) client in
      (match r with
       | Returned count => Returned {| currentUsage := count; statusTimestamp := now |}
       | Threw e => Threw e
       end,
       {| redisClient := Some client';
          initialized := initialized l;
          inMemoryStore := inMemoryStore l |})
  | None =>
      let requests := default [] (inMemoryStore l !! key) in
      (Returned {| currentUsage := sumWeights requests; statusTimestamp := now |}, l)
  end.

(** [closeRateLimiter]: [quit] is awaited first, so when it throws nothing
    else is done. *)
Definition closeRateLimiter (l : Limiter) : Outcome unit * Limiter :=
  match redisClient l with
  | Some client =>
      match quit client with
      | (Returned _, _) =>
          (Returned tt,
           {| redisClient := None; initialized := false; inMemoryStore := ∅ |})
      | (Threw e, client') =>
          (Threw e,
           {| redisClient := Some client';
              initialized := initialized l;
              inMemoryStore := inMemoryStore l |})
      end
  | None =>
      (Returned tt,
       {| redisClient := None; initialized := false; inMemoryStore := ∅ |})
  end.

(** ** Sequences of calls *)

(** One call of [checkRateLimit] with the clock reading it observed. *)
Record Call := mkCall {
  callKey : string;
  callMax : Z;
  callWindow : Z;
  callWeight : Z;
  callNow : Z;
  callRnd : N
}.

Definition perform (l : Limiter) (c : Call) : Outcome Decision * Limiter :=
  checkRateLimit l (callKey c) (callMax c) (callWindow c) (callWeight c)
    (callNow c) (callRnd c).

(** Runs the calls in order and logs every call with its outcome. *)
Fixpoint replay (l : Limiter) (cs : list Call)
    : list (Call * Outcome Decision) * Limiter :=
  match cs with
  | [] => ([], l)
  | c :: cs' =>
      let (r, l') := perform l c in
      let (log, l'') := replay l' cs' in
      ((c, r) :: log, l'')
  end.

Definition performMemory (st : gmap string (list Request)) (c : Call)
    : Outcome Decision * gmap string (list Request) :=
  checkRateLimitMemory st (callKey c) (callMax c) (callWindow c) (callWeight c) (callNow c).

(** The same run seen from the in-memory store alone. *)
Fixpoint replayMemory (st : gmap string (list Request)) (cs : list Call)
    : list (Call * Outcome Decision) * gmap string (list Request) :=
  match cs with
  | [] => ([], st)
  | c :: cs' =>
      let (r, st') := performMemory st c in
      let (log, st'') := replayMemory st' cs' in
      ((c, r) :: log, st'')
  end.

Definition performRedis (client : RedisClientType) (c : Call)
    : Outcome Decision * RedisClientType :=
  checkRateLimitRedis (callKey c) (callMax c) (callWindow c) (callWeight c)
    (callNow c) (callRnd c) client.

(** The same run as [checkRateLimitRedis] executes it on a client. *)
Fixpoint replayRedis (client : RedisClientType) (cs : list Call)
    : list (Call * Outcome Decision) * RedisClientType :=
  match cs with
  | [] => ([], client)
  | c :: cs' =>
      let (r, client') := performRedis client c in
      let (log, client'') := replayRedis client' cs' in
      ((c, r) :: log, client'')
  end.

(** The clock never runs backwards: every call reads a time at least [t] and
    at least that of the call before it. *)
Fixpoint clockFrom (t : Z) (cs : list Call) : bool :=
  match cs with
  | [] => true
  | c :: cs' => (t <=? callNow c) && clockFrom (callNow c) cs'
  end.

Definition monotoneClock (cs : list Call) : bool :=
  match cs with
  | [] => true
  | c :: cs' => clockFrom (callNow c) cs'
  end.

(** The reading of the clock at the end of a run that started at [t]. *)
Definition lastTime (t : Z) (cs : list Call) : Z :=
  fold_left (fun _ c => callNow c) cs t.

(** ** Vocabulary of the properties *)

Definition isAllowed (r : Outcome Decision) : bool :=
  match r with
  | Returned d => allowed d
  | Threw _ => false
  end.

(** A logged call on [k] that returned [allowed = true]. *)
Definition allowedOn (k : string) (e : Call * Outcome Decision) : bool :=
  bool_decide (callKey e.1 = k) && isAllowed e.2.

(** Number of allowed calls on [k] whose time [t] satisfies [lo <= t < hi]. *)
Definition allowedWithin (k : string) (lo hi : Z)
    (log : list (Call * Outcome Decision)) : nat :=
  length (List.filter
            (fun e => allowedOn k e && (lo <=? callNow e.1) && (callNow e.1 <? hi))
            log).

(** The same for the closed span [lo <= t <= hi]. *)
Definition allowedWithinClosed (k : string) (lo hi : Z)
    (log : list (Call * Outcome Decision)) : nat :=
  length (List.filter
            (fun e => allowedOn k e && (lo <=? callNow e.1) && (callNow e.1 <=? hi))
            log).

(** Number of allowed calls on [k] made strictly after [tau]. *)
Definition allowedAfter (k : string) (tau : Z)
    (log : list (Call * Outcome Decision)) : nat :=
  length (List.filter (fun e => allowedOn k e && (tau <? callNow e.1)) log).

(** The array of a key, [inMemoryStore.get(key) || []]. *)
Definition requestsOf (st : gmap string (list Request)) (key : string) : list Request :=
  default [] (st !! key).

(** Timestamps in non-decreasing order. *)
Definition chronological (requests : list Request) : Prop :=
  StronglySorted (fun a b => timestamp a <= timestamp b) requests.

(** No recorded event lies in the future of [now]. *)
Definition notAfter (now : Z) (requests : list Request) : Prop :=
  Forall (fun req => timestamp req <= now) requests.

(** The same for the entries of a sorted set, whose member strings carry the
    score they were added with. *)
Definition zNotAfter (now : Z) (zs : list ZEntry) : Prop :=
  Forall (fun e => parseInt (member e) = score e /\ score e <= now) zs.

(** No fault among the next [n] commands. *)
Definition healthy (n : nat) (fs : list bool) : bool :=
  forallb negb (firstn n fs).

(** The two object literals returned by the check functions. *)
Definition deniedDecision (windowMs now : Z) (oldestRequest : Request) : Decision :=
  let r := Math_ceil_div (windowMs - (now - timestamp oldestRequest)) 1000 in
  {| allowed := false; remaining := 0;
     resetTime := now + r * 1000; retryAfter := Some r |}.

Definition allowedDecision (maxRequests windowMs weight' now used : Z) : Decision :=
  {| allowed := true; remaining := maxRequests - (used + weight');
     resetTime := now + windowMs; retryAfter := None |}.

(** Every array of the store is in chronological order and holds no event
    dated after [t]. *)
Definition tidy (t : Z) (st : gmap string (list Request)) : Prop :=
  forall key, chronological (requestsOf st key) /\ notAfter t (requestsOf st key).

(** The calls on [k] of a run all use the limit [M], the window [W] and
    weight 1. *)
Definition usesParameters (k : string) (M W : Z) (c : Call) : Prop :=
  callKey c = k -> callMax c = M /\ callWindow c = W /\ callWeight c = 1.

Definition fixedParameters (k : string) (M W : Z) (cs : list Call) : Prop :=
  Forall (usesParameters k M W) cs.

(** The array of [k] accounts for the admitted calls of the log [hist]: its
    events have weight 1 and, for every threshold a later call can prune
    with, as many events lie after the threshold as calls were admitted
    after it. *)
Definition accounted (k : string) (W t : Z)
    (hist : list (Call * Outcome Decision)) (st : gmap string (list Request)) : Prop :=
  Forall (fun r => weight r = 1) (requestsOf st k) /\
  forall tau, t - W <= tau ->
    allowedAfter k tau hist = length (pruneRequests tau (requestsOf st k)).

(** The entries of a sorted set that survive [zRemRangeByScore]. *)
Definition pruneEntries (windowStart : Z) (zs : list ZEntry) : list ZEntry :=
  List.filter (fun e => windowStart <? score e) zs.

(** The denial returned on the Redis path when [kept] is what is left of the
    sorted set after pruning. *)
Definition redisDenied (windowMs now : Z) (kept : list ZEntry) : Decision :=
  let r := match kept with
           | [] => 0
           | e :: _ => Math_ceil_div (windowMs - (now - parseInt (member e))) 1000
           end in
  {| allowed := false; remaining := 0;
     resetTime := now + r * 1000; retryAfter := Some r |}.

(** The events recorded for [key] in the store that [checkRateLimit] uses
    are not in the future of [now]. *)
Definition recordedNotAfter (now : Z) (l : Limiter) (key : string) : Prop :=
  match redisClient l with
  | Some client => zNotAfter now (zset_of client (redisKeyOf key))
  | None => notAfter now (requestsOf (inMemoryStore l) key)
  end.

(** ** Vocabulary of the properties of weighted runs *)

Definition sumZ (l : list Z) : Z := fold_right Z.add 0 l.

(** Total weight of the allowed calls on [k] made at times [t] with
    [lo <= t < hi], and of those made strictly after [tau]. *)
Definition allowedWeightWithin (k : string) (lo hi : Z)
    (log : list (Call * Outcome Decision)) : Z :=
  sumZ (map (fun e => callWeight e.1)
          (List.filter
             (fun e => allowedOn k e && (lo <=? callNow e.1) && (callNow e.1 <? hi))
             log)).

Definition allowedWeightAfter (k : string) (tau : Z)
    (log : list (Call * Outcome Decision)) : Z :=
  sumZ (map (fun e => callWeight e.1)
          (List.filter (fun e => allowedOn k e && (tau <? callNow e.1)) log)).

(** The calls on [k] use the limit [M], the window [W] and a weight that
    is not negative. *)
Definition usesWindow (k : string) (M W : Z) (c : Call) : Prop :=
  callKey c = k -> callMax c = M /\ callWindow c = W /\ 0 <= callWeight c.

(** The array of [k] accounts for the weight of the allowed calls of the
    log [hist]. *)
Definition accountedWeights (k : string) (W t : Z)
    (hist : list (Call * Outcome Decision)) (st : gmap string (list Request)) : Prop :=
  Forall (fun e => allowedOn k e = true -> 0 <= callWeight e.1) hist /\
  forall tau, t - W <= tau ->
    allowedWeightAfter k tau hist = sumWeights (pruneRequests tau (requestsOf st k)).

(** The calls on [k] use the limit [M] and weight 1. *)
Definition unitCall (k : string) (M : Z) (c : Call) : Prop :=
  callKey c = k -> callMax c = M /\ callWeight c = 1.

(** Number of calls on [k] in a run. *)
Definition callsOn (k : string) (cs : list Call) : nat :=
  length (List.filter (fun c => bool_decide (callKey c = k)) cs).

(** What a counter that starts at zero answers to the [i]-th call of a window
    (counting from 0): the first [M] calls are allowed and count down,
    the later ones are denied with the delay left to the first event. *)
Definition counterAnswer (M W first : Z) (i : nat) (c : Call) : Outcome Decision :=
  if Z.of_nat i <? M
  then Returned (allowedDecision M W 1 (callNow c) (Z.of_nat i))
  else Returned (deniedDecision W (callNow c) {| timestamp := first; weight := 1 |}).

Fixpoint counterAnswers (M W first : Z) (i : nat) (cs : list Call)
    : list (Outcome Decision) :=
  match cs with
  | [] => []
  | c :: cs' => counterAnswer M W first i c :: counterAnswers M W first (S i) cs'
  end.

(** * The IP detection service

    Strings are sequences of code units below 256, which is what header
    values and socket addresses are; [charCodeAt] is the code of the
    character. *)

From Stdlib Require Import Ascii.

(** ** String primitives *)

(** [s.charCodeAt(i)] *)
Definition charCode (c : ascii) : Z := Z.of_N (N_of_ascii c).

(** The white space and line terminators that [trim] removes, among the
    code units below 256: tab to carriage return, space and no-break
    space. *)
Definition isWhiteSpace (c : ascii) : bool :=
  let n := charCode c in
  ((9 <=? n) && (n <=? 13)) || (n =? 32) || (n =? 160).

Fixpoint trimStart (s : string) : string :=
  match s with
  | EmptyString => EmptyString
  | String c s' => if isWhiteSpace c then trimStart s' else s
  end.

Fixpoint trimEnd (s : string) : string :=
  match s with
  | EmptyString => EmptyString
  | String c s' =>
      match trimEnd s' with
      | EmptyString => if isWhiteSpace c then EmptyString else String c EmptyString
      | t => String c t
      end
  end.

(** [s.trim()] *)
Definition trim (s : string) : string := trimEnd (trimStart s).

(** [s.split(sep)] for a separator of one character. *)
Fixpoint splitOn (sep : ascii) (s : string) : list string :=
  match s with
  | EmptyString => [EmptyString]
  | String c s' =>
      if Ascii.eqb c sep then EmptyString :: splitOn sep s'
      else match splitOn sep s' with
           | f :: fs => String c f :: fs
           | [] => [String c EmptyString]
           end
  end.

(** [s.split(",")[0]] *)
Definition firstOfSplit (s : string) : string := hd EmptyString (splitOn "," s).

(** [s.replace(/[\[\]]/g, "")] *)
Fixpoint removeBrackets (s : string) : string :=
  match s with
  | EmptyString => EmptyString
  | String c s' =>
      if Ascii.eqb c "[" || Ascii.eqb c "]" then removeBrackets s'
      else String c (removeBrackets s')
  end.

(** [s.startsWith(p)] and [s.substring(n)] *)
Fixpoint startsWith (p s : string) : bool :=
  match p, s with
  | EmptyString, _ => true
  | String a p', String b s' => Ascii.eqb a b && startsWith p' s'
  | String _ _, EmptyString => false
  end.

Fixpoint substringFrom (n : nat) (s : string) : string :=
  match n, s with
  | O, _ => s
  | S n', String _ s' => substringFrom n' s'
  | S _, EmptyString => EmptyString
  end.

(** ** Regular expressions

    The patterns of the service use literals, character ranges, sequence,
    alternation and bounded repetition.  [matchK r s k] runs [r] at the
    start of [s] the way a backtracking engine does, and hands what is left
    of [s] to the continuation [k]. *)

Inductive regex :=
  | REps
  | RChar (c : ascii)
  | RRange (lo hi : ascii)
  | RSeq (r1 r2 : regex)
  | RAlt (r1 r2 : regex).

Fixpoint matchK (r : regex) (s : string) (k : string -> bool) : bool :=
  match r with
  | REps => k s
  | RChar c =>
      match s with
      | String a s' => if Ascii.eqb a c then k s' else false
      | EmptyString => false
      end
  | RRange lo hi =>
      match s with
      | String a s' =>
          if (charCode lo <=? charCode a) && (charCode a <=? charCode hi)
          then k s' else false
      | EmptyString => false
      end
  | RSeq r1 r2 => matchK r1 s (fun s' => matchK r2 s' k)
  | RAlt r1 r2 => if matchK r1 s k then true else matchK r2 s k
  end.

Definition isEmpty (s : string) : bool :=
  match s with EmptyString => true | String _ _ => false end.

(** [/^r$/.test(s)] and [/^r/.test(s)] *)
Definition testAnchored (r : regex) (s : string) : bool := matchK r s isEmpty.
Definition testPrefix (r : regex) (s : string) : bool := matchK r s (fun _ => true).

(** [r?], [r{n}], a literal string, and [r{1,4}] *)
Definition ROpt (r : regex) : regex := RAlt r REps.

Fixpoint RRep (n : nat) (r : regex) : regex :=
  match n with
  | O => REps
  | S n' => RSeq r (RRep n' r)
  end.

Fixpoint RLit (s : string) : regex :=
  match s with
  | EmptyString => REps
  | String c s' => RSeq (RChar c) (RLit s')
  end.

Definition RUpTo4 (r : regex) : regex :=
  RSeq r (ROpt (RSeq r (ROpt (RSeq r (ROpt r))))).

(** [25[0-5]|2[0-4][0-9]|[01]?[0-9][0-9]?] *)
Definition octetRegex : regex :=
  RAlt (RSeq (RLit "25") (RRange "0" "5"))
    (RAlt (RSeq (RChar "2") (RSeq (RRange "0" "4") (RRange "0" "9")))
       (RSeq (ROpt (RRange "0" "1")) (RSeq (RRange "0" "9") (ROpt (RRange "0" "9"))))).

(** The body of [ipv4Regex], between [^] and [$]. *)
Definition ipv4Regex : regex :=
  RSeq (RRep 3 (RSeq octetRegex (RChar "."))) octetRegex.

(** [[0-9a-fA-F]] *)
Definition hexRegex : regex :=
  RAlt (RRange "0" "9") (RAlt (RRange "a" "f") (RRange "A" "F")).

(** The body of [ipv6Regex]. *)
Definition ipv6Regex : regex :=
  RAlt (RSeq (RRep 7 (RSeq (RUpTo4 hexRegex) (RChar ":"))) (RUpTo4 hexRegex))
    (RAlt (RLit "::1") (RLit "::")).

(** ** The service *)

Definition isValidIP (ip : string) : bool :=
  if isEmpty ip then false
  else
    let ip := trim ip in
    if testAnchored ipv4Regex ip then true
    else if testAnchored ipv6Regex ip then true
    else if String.eqb ip "localhost" || String.eqb ip "127.0.0.1" || String.eqb ip "::1"
    then true
    else false.

(** The patterns of [privateIPRanges]; the flag says whether the pattern
    ends with [$].  The patterns with the [i] flag spell out both cases. *)
Definition privateIPRanges : list (regex * bool) :=
  [ (RLit "127.", false);
    (RLit "10.", false);
    (RSeq (RLit "172.")
       (RSeq (RAlt (RSeq (RChar "1") (RRange "6" "9"))
                (RAlt (RSeq (RChar "2") (RRange "0" "9"))
                   (RSeq (RChar "3") (RRange "0" "1"))))
          (RChar ".")), false);
    (RLit "192.168.", false);
    (RLit "169.254.", false);
    (RSeq (RAlt (RChar "f") (RChar "F"))
       (RSeq (RAlt (RChar "c") (RChar "C")) (RLit "00:")), false);
    (RSeq (RAlt (RChar "f") (RChar "F"))
       (RSeq (RAlt (RChar "e") (RChar "E")) (RLit "80:")), false);
    (RLit "::1", true);
    (RLit "::", true) ].

Definition isPrivateIP (ip : string) : bool :=
  existsb (fun range : regex * bool =>
             if range.2 then testAnchored range.1 ip else testPrefix range.1 ip)
    privateIPRanges.

(** What the service reads of an Express request. *)
Record ExpressRequest := mkExpressRequest {
  headers : gmap string string;
  socketRemoteAddress : option string;
  connectionRemoteAddress : option string;
  reqIp : option string
}.

(** [ipAddress && this.isValidIP(ipAddress)] on an optional string. *)
Definition acceptable (ipAddress : option string) : option string :=
  match ipAddress with
  | Some ip => if negb (isEmpty ip) && isValidIP ip then Some ip else None
  | None => None
  end.

(** [a || b] on optional strings, the empty string being falsy. *)
Definition orElse (a b : option string) : option string :=
  match a with
  | Some s => if isEmpty s then b else a
  | None => b
  end.

Definition getClientIP (req : ExpressRequest) : string :=
  match acceptable ((fun h => trim (firstOfSplit h)) <$> headers req !! "x-client-ip") with
  | Some ip => ip
  | None =>
  match acceptable ((fun h => trim (firstOfSplit h)) <$> headers req !! "x-forwarded-for") with
  | Some ip => ip
  | None =>
  match acceptable (trim <$> headers req !! "cf-connecting-ip") with
  | Some ip => ip
  | None =>
  match acceptable ((fun h => trim (firstOfSplit h)) <$> headers req !! "x-forwarded") with
  | Some ip => ip
  | None =>
  match acceptable ((fun h => trim (firstOfSplit h))
                      <$> headers req !! "x-original-forwarded-for") with
  | Some ip => ip
  | None =>
  match acceptable (trim <$> headers req !! "x-real-ip") with
  | Some ip => ip
  | None =>
  match acceptable ((fun h => trim (removeBrackets h)) <$> headers req !! "x-originating-ip") with
  | Some ip => ip
  | None =>
      let ipAddress :=
        default EmptyString
          (orElse (socketRemoteAddress req)
             (orElse (connectionRemoteAddress req) (reqIp req))) in
      let ipAddress :=
        if startsWith "::ffff:" ipAddress then substringFrom 7 ipAddress
        else ipAddress in
      if isValidIP ipAddress then ipAddress else "0.0.0.0"
  end end end end end end end.

(** [x | 0]: the signed 32-bit integer of an integer. *)
Definition toInt32 (x : Z) : Z := (x + 2 ^ 31) mod 2 ^ 32 - 2 ^ 31.

(** The loop of [generateClientFingerprint]; [hash] is a 32-bit integer
    at every turn. *)
Fixpoint hashLoop (hash : Z) (data : string) : Z :=
  match data with
  | EmptyString => hash
  | String c data' =>
      let char := charCode c in
      let hash := toInt32 (Z.shiftl hash 5) - hash + char in
      let hash := toInt32 hash in
      hashLoop hash data'
  end.

(** One digit of [toString(36)]. *)
Definition digit36 (d : Z) : ascii :=
  if d <? 10 then ascii_of_N (Z.to_N (48 + d)) else ascii_of_N (Z.to_N (87 + d)).

Fixpoint digits36 (fuel : nat) (n : Z) (acc : string) : string :=
  match fuel with
  | O => acc
  | S fuel' =>
      if n =? 0 then acc
      else digits36 fuel' (n / 36) (String (digit36 (n mod 36)) acc)
  end.

(** [n.toString(36)] for an integer that is not negative. *)
Definition toString36 (n : Z) : string :=
  if n =? 0 then "0" else digits36 (S (Z.to_nat (Z.log2 n))) n EmptyString.

Definition generateClientFingerprint (ip : string) (userAgent : option string) : string :=
  let data := ip +:+ ":" +:+ default "unknown" (orElse userAgent None) in
  let hash := hashLoop 0 data in
  toString36 (Z.abs hash).

(** The body that [handleIPDetectionHealth] sends. *)
Record HealthReport := mkHealthReport {
  status : string;
  detectedIP : string;
  reportTimestamp : Z
}.

Definition handleIPDetectionHealth (req : ExpressRequest) (now : Z) : HealthReport :=
  let ip := getClientIP req in
  let isValid := isValidIP ip in
  {| status := if isValid then "operational" else "degraded";
     detectedIP := ip;
     reportTimestamp := now |}.

(** ** Vocabulary of the properties of the service *)

(** The words of a pattern. *)
Fixpoint lang (r : regex) (w : string) : Prop :=
  match r with
  | REps => w = EmptyString
  | RChar c => w = String c EmptyString
  | RRange lo hi =>
      exists a, w = String a EmptyString /\ charCode lo <= charCode a <= charCode hi
  | RSeq r1 r2 => exists w1 w2, w = w1 +:+ w2 /\ lang r1 w1 /\ lang r2 w2
  | RAlt r1 r2 => lang r1 w \/ lang r2 w
  end.

Definition isDigit (c : ascii) : bool := (48 <=? charCode c) && (charCode c <=? 57).

(** The number that a string of decimal digits writes. *)
Fixpoint decimalValueFrom (acc : Z) (s : string) : Z :=
  match s with
  | EmptyString => acc
  | String c s' => decimalValueFrom (10 * acc + (charCode c - 48)) s'
  end.

Definition decimalValue (s : string) : Z := decimalValueFrom 0 s.

Fixpoint allDigits (s : string) : bool :=
  match s with
  | EmptyString => true
  | String c s' => isDigit c && allDigits s'
  end.

(** One to three decimal digits that write a number up to 255. *)
Definition octetNumeral (s : string) : bool :=
  (1 <=? Z.of_nat (String.length s)) && (Z.of_nat (String.length s) <=? 3)
  && allDigits s && (decimalValue s <=? 255).

(** Four octet numerals separated by dots. *)
Definition dottedQuad (s : string) : Prop :=
  exists a b c d,
    s = a +:+ "." +:+ b +:+ "." +:+ c +:+ "." +:+ d /\
    octetNumeral a = true /\ octetNumeral b = true /\
    octetNumeral c = true /\ octetNumeral d = true.

Definition isHexDigit (c : ascii) : bool :=
  let n := charCode c in
  ((48 <=? n) && (n <=? 57)) || ((97 <=? n) && (n <=? 102)) || ((65 <=? n) && (n <=? 70)).

Fixpoint allHexDigits (s : string) : bool :=
  match s with
  | EmptyString => true
  | String c s' => isHexDigit c && allHexDigits s'
  end.

(** One to four hexadecimal digits. *)
Definition hexGroup (s : string) : bool :=
  (1 <=? Z.of_nat (String.length s)) && (Z.of_nat (String.length s) <=? 4)
  && allHexDigits s.

(** Eight hexadecimal groups separated by colons. *)
Definition colonOctuple (s : string) : Prop :=
  exists g1 g2 g3 g4 g5 g6 g7 g8,
    s = g1 +:+ ":" +:+ g2 +:+ ":" +:+ g3 +:+ ":" +:+ g4 +:+ ":" +:+
        g5 +:+ ":" +:+ g6 +:+ ":" +:+ g7 +:+ ":" +:+ g8 /\
    Forall (fun g => hexGroup g = true) [g1; g2; g3; g4; g5; g6; g7; g8].

(** The polynomial with coefficient 31 over the codes of a string. *)
Fixpoint polynomial31 (acc : Z) (s : string) : Z :=
  match s with
  | EmptyString => acc
  | String c s' => polynomial31 (31 * acc + charCode c) s'
  end.

(** The value of a digit of base 36, and the number that a string of such
    digits writes. *)
Definition digitValue36 (c : ascii) : Z :=
  if isDigit c then charCode c - 48 else charCode c - 87.

Fixpoint parse36From (acc : Z) (s : string) : Z :=
  match s with
  | EmptyString => acc
  | String c s' => parse36From (36 * acc + digitValue36 c) s'
  end.

Definition parse36 (s : string) : Z := parse36From 0 s.

Fixpoint allDigits36 (s : string) : bool :=
  match s with
  | EmptyString => true
  | String c s' =>
      (isDigit c || ((97 <=? charCode c) && (charCode c <=? 122))) && allDigits36 s'
  end.

(** The finitely many words of a pattern. *)
Fixpoint wordsOf (r : regex) : list string :=
  match r with
  | REps => [EmptyString]
  | RChar c => [String c EmptyString]
  | RRange lo hi =>
      map (fun n => String (ascii_of_nat n) EmptyString)
        (seq (nat_of_ascii lo) (S (nat_of_ascii hi) - nat_of_ascii lo))
  | RSeq r1 r2 =>
      flat_map (fun w1 => map (fun w2 => w1 +:+ w2) (wordsOf r2)) (wordsOf r1)
  | RAlt r1 r2 => wordsOf r1 ++ wordsOf r2
  end.

(** The decimal numeral, without leading zeros, of a number below 1000. *)
Definition decimalDigit (d : nat) : ascii := ascii_of_nat (48 + d).

Definition decimalNumeral (n : nat) : string :=
  if (n <? 10)%nat then String (decimalDigit n) EmptyString
  else if (n <? 100)%nat
  then String (decimalDigit (n / 10)) (String (decimalDigit (n mod 10)) EmptyString)
  else String (decimalDigit (n / 100))
         (String (decimalDigit (n / 10 mod 10))
            (String (decimalDigit (n mod 10)) EmptyString)).

(** The ranges of loopback, private and link-local IPv4 addresses, by
    their first two octets. *)
Definition privateRange (a b : nat) : bool :=
  ((a =? 127) || (a =? 10) || ((a =? 172) && (16 <=? b) && (b <=? 31))
   || ((a =? 192) && (b =? 168)) || ((a =? 169) && (b =? 254)))%nat.

(** Whether the patterns of [privateIPRanges] settle on [b] for every
    string that starts with [p]: some pattern without [$] has a word at
    the start of [p], or no word of any pattern is compatible with [p]. *)
Definition settled (p : string) (b : bool) : bool :=
  if b
  then existsb (fun range : regex * bool =>
                  negb range.2 && existsb (fun w => startsWith w p) (wordsOf range.1))
         privateIPRanges
  else forallb (fun range : regex * bool =>
                  forallb (fun w => negb (startsWith w p) && negb (startsWith p w))
                    (wordsOf range.1))
         privateIPRanges.

(** * Configuration and callers *)

(** The [corsOrigins] of [validateEnv]: the fields of the variable
    [CORS_ORIGINS], trimmed, the empty ones dropped. *)
Definition corsOrigins (CORS_ORIGINS : option string) : list string :=
  List.filter (fun s => negb (isEmpty s))
    (map trim (splitOn "," (default EmptyString (orElse CORS_ORIGINS None)))).

(** The [origin] option that [createServer] gives to the CORS middleware:
    the list of origins, or [true], which admits every origin. *)
Inductive CorsOrigin :=
  | AnyOrigin
  | OriginList (origins : list string).

Definition corsOriginOption (origins : list string) : CorsOrigin :=
  if (0 <? Z.of_nat (length origins)) then OriginList origins else AnyOrigin.

(** What a middleware does with a request: pass it on, with the remaining
    budget when it was set, or answer 429 with the retry hint. *)
Inductive MiddlewareResult :=
  | Next (rateLimitRemaining : option Z)
  | TooManyRequests (retryAfter : option Z).

(** The identifier of the global limiter: [`uid:${decodedUid}`], or
    [`ip:${req.ip || req.socket.remoteAddress}`]. *)
Definition rateLimitIdentifier (decodedUid ip remoteAddress : option string) : string :=
  match orElse decodedUid None with
  | Some uid => "uid:" +:+ uid
  | None => "ip:" +:+ default "undefined" (orElse ip remoteAddress)
  end.

(** The global rate limiting middleware given in the integration guide. *)
Definition rateLimitMiddleware (l : Limiter) (decodedUid ip remoteAddress : option string)
    (now : Z) (rnd : N) : MiddlewareResult * Limiter :=
  let identifier := rateLimitIdentifier decodedUid ip remoteAddress in
  match checkRateLimit l identifier 100 60000 1 now rnd with
  | (Returned result, l') =>
      if negb (allowed result)
      then (TooManyRequests (retryAfter result), l')
      else (Next (Some (remaining result)), l')
  | (Threw _, l') => (Next None, l')
  end.

(** * Properties *)

(** ** Arithmetic of [Math.ceil] *)

Lemma Math_ceil_div_lower x d : 0 < d -> 0 < x -> 0 < Math_ceil_div x d.
Proof.
  intros Hd Hx. unfold Math_ceil_div.
  assert (- x / d < 0); [| lia].
  apply Z.div_lt_upper_bound; lia.
Qed.

Lemma Math_ceil_div_mono x y d : 0 < d -> x <= y -> Math_ceil_div x d <= Math_ceil_div y d.
Proof.
  intros Hd Hxy. unfold Math_ceil_div.
  assert (- y / d <= - x / d); [| lia].
  apply Z.div_le_mono; lia.
Qed.

Lemma Math_ceil_div_nonneg x d : 0 < d -> 0 <= x -> 0 <= Math_ceil_div x d.
Proof.
  intros Hd Hx. unfold Math_ceil_div.
  assert (- x / d <= 0); [| lia].
  apply Z.div_le_upper_bound; lia.
Qed.

(** ** Sums and pruning *)

Lemma fold_weights_shift (l : list Request) (a : Z) :
  fold_left (fun sum req => sum + weight req) l a = a + sumWeights l.
Proof.
  unfold sumWeights. revert a.
  induction l as [|r l IH]; intros a; simpl; [lia|].
  rewrite (IH (a + weight r)), (IH (0 + weight r)). lia.
Qed.

Lemma sumWeights_nil : sumWeights [] = 0.
Proof. reflexivity. Qed.

Lemma sumWeights_cons r l : sumWeights (r :: l) = weight r + sumWeights l.
Proof. unfold sumWeights at 1. simpl. rewrite fold_weights_shift. lia. Qed.

Lemma sumWeights_app l1 l2 : sumWeights (l1 ++ l2) = sumWeights l1 + sumWeights l2.
Proof.
  induction l1 as [|r l1 IH]; simpl; [reflexivity|].
  rewrite !sumWeights_cons, IH. lia.
Qed.

Lemma sumWeights_unit (l : list Request) :
  Forall (fun req => weight req = 1) l -> sumWeights l = Z.of_nat (length l).
Proof.
  induction 1 as [|r l Hr _ IH]; [reflexivity|].
  rewrite sumWeights_cons, IH, Hr. simpl length. lia.
Qed.

Lemma pruneRequests_In ws l r :
  In r (pruneRequests ws l) <-> In r l /\ ws < timestamp r.
Proof. unfold pruneRequests. rewrite filter_In, Z.ltb_lt. reflexivity. Qed.

Lemma pruneRequests_Forall (P : Request -> Prop) ws l :
  Forall P l -> Forall P (pruneRequests ws l).
Proof.
  rewrite !List.Forall_forall. intros H r Hr.
  apply pruneRequests_In in Hr. apply H, Hr.
Qed.

Lemma pruneRequests_app ws l1 l2 :
  pruneRequests ws (l1 ++ l2) = pruneRequests ws l1 ++ pruneRequests ws l2.
Proof. apply List.filter_app. Qed.

Lemma pruneRequests_twice ws ws' l :
  ws <= ws' -> pruneRequests ws' (pruneRequests ws l) = pruneRequests ws' l.
Proof.
  intros Hle. unfold pruneRequests.
  induction l as [|r l IH]; simpl; [reflexivity|].
  destruct (ws <? timestamp r) eqn:E1; simpl; rewrite IH; [reflexivity|].
  destruct (ws' <? timestamp r) eqn:E2; [|reflexivity].
  apply Z.ltb_lt in E2. apply Z.ltb_ge in E1. lia.
Qed.

Lemma pruneRequests_all_expired ws l :
  Forall (fun req => timestamp req <= ws) l -> pruneRequests ws l = [].
Proof.
  unfold pruneRequests. induction 1 as [|r l Hr _ IH]; simpl; [reflexivity|].
  destruct (ws <? timestamp r) eqn:E; [apply Z.ltb_lt in E; lia | exact IH].
Qed.

Lemma pruneRequests_chronological ws l :
  chronological l -> chronological (pruneRequests ws l).
Proof.
  unfold chronological, pruneRequests.
  induction 1 as [|r l Hs IH Hr]; simpl; [constructor|].
  destruct (ws <? timestamp r); [|exact IH].
  constructor; [exact IH|].
  rewrite List.Forall_forall in *. intros x Hx.
  apply filter_In in Hx. apply Hr, Hx.
Qed.

Lemma chronological_snoc l now w :
  chronological l -> notAfter now l ->
  chronological (l ++ [{| timestamp := now; weight := w |}]).
Proof.
  unfold chronological, notAfter.
  induction 1 as [|r l Hs IH Hr]; intros Hnow; simpl.
  - repeat constructor.
  - inversion Hnow as [|? ? Hrn Hln]; subst.
    constructor; [apply IH, Hln|].
    apply Forall_app. split; [exact Hr|].
    constructor; [simpl; exact Hrn | constructor].
Qed.

(** ** The three exits of [checkRateLimitMemory] *)

Section MemoryCall.
Variables (st : gmap string (list Request)) (key : string).
Variables (maxRequests windowMs weight' now : Z).

Local Abbreviation pruned := (pruneRequests (now - windowMs) (requestsOf st key)).
Local Abbreviation deniedDecision := (deniedDecision windowMs now).
Local Abbreviation allowedDecision := (allowedDecision maxRequests windowMs weight' now).

Lemma checkRateLimitMemory_cases :
  (maxRequests < sumWeights pruned + weight' /\ pruned = [] /\
   checkRateLimitMemory st key maxRequests windowMs weight' now
   = (Threw TypeError, st))
  \/ (maxRequests < sumWeights pruned + weight' /\
      (exists oldestRequest rest, pruned = oldestRequest :: rest /\
         checkRateLimitMemory st key maxRequests windowMs weight' now
         = (Returned (deniedDecision oldestRequest), <[key := pruned]> st)))
  \/ (sumWeights pruned + weight' <= maxRequests /\
      checkRateLimitMemory st key maxRequests windowMs weight' now
      = (Returned (allowedDecision (sumWeights pruned)),
         <[key := pruned ++ [{| timestamp := now; weight := weight' |}]]> st)).
Proof.
  unfold checkRateLimitMemory. fold (requestsOf st key). fold pruned.
  destruct (maxRequests <? sumWeights pruned + weight') eqn:E.
  - apply Z.ltb_lt in E. destruct pruned as [|o rest] eqn:Ep.
    + left. auto.
    + right. left. split; [exact E|]. exists o, rest. auto.
  - apply Z.ltb_ge in E. right. right. auto.
Qed.

Lemma checkRateLimitMemory_threw e st' :
  checkRateLimitMemory st key maxRequests windowMs weight' now = (Threw e, st') ->
  e = TypeError /\ st' = st /\ pruned = [] /\ maxRequests < weight'.
Proof.
  destruct checkRateLimitMemory_cases
    as [(Hlt & Hnil & ->) | [(_ & o & rest & _ & ->) | (_ & ->)]];
    intros [= <- <-] || intros [=].
  rewrite Hnil in Hlt. rewrite sumWeights_nil in Hlt. repeat split; auto; lia.
Qed.

Lemma checkRateLimitMemory_denied d st' :
  checkRateLimitMemory st key maxRequests windowMs weight' now = (Returned d, st') ->
  allowed d = false ->
  maxRequests < sumWeights pruned + weight' /\
  st' = <[key := pruned]> st /\
  exists oldestRequest rest,
    pruned = oldestRequest :: rest /\ d = deniedDecision oldestRequest.
Proof.
  destruct checkRateLimitMemory_cases
    as [(_ & _ & ->) | [(Hlt & o & rest & Hp & ->) | (_ & ->)]];
    intros [= <- <-] || intros [=]; simpl; intros Ha; try discriminate.
  repeat split; eauto.
Qed.

Lemma checkRateLimitMemory_allowed d st' :
  checkRateLimitMemory st key maxRequests windowMs weight' now = (Returned d, st') ->
  allowed d = true ->
  sumWeights pruned + weight' <= maxRequests /\
  d = allowedDecision (sumWeights pruned) /\
  st' = <[key := pruned ++ [{| timestamp := now; weight := weight' |}]]> st.
Proof.
  destruct checkRateLimitMemory_cases
    as [(_ & _ & ->) | [(Hlt & o & rest & Hp & ->) | (Hle & ->)]];
    intros [= <- <-] || intros [=]; simpl; intros Ha; try discriminate.
  auto.
Qed.

(** A call writes at most the array of its own key. *)
Lemma checkRateLimitMemory_frame key' :
  key' <> key ->
  requestsOf (checkRateLimitMemory st key maxRequests windowMs weight' now).2 key'
  = requestsOf st key'.
Proof.
  intros Hne. unfold requestsOf.
  destruct checkRateLimitMemory_cases
    as [(_ & _ & ->) | [(_ & o & rest & _ & ->) | (_ & ->)]]; simpl;
    [reflexivity | |]; rewrite lookup_insert_ne; auto.
Qed.

(** What the array of the key holds after the call. *)
Lemma checkRateLimitMemory_own :
  let out := checkRateLimitMemory st key maxRequests windowMs weight' now in
  requestsOf out.2 key =
    match out.1 with
    | Threw _ => requestsOf st key
    | Returned d =>
        if allowed d
        then pruned ++ [{| timestamp := now; weight := weight' |}]
        else pruned
    end.
Proof.
  unfold requestsOf.
  destruct checkRateLimitMemory_cases
    as [(_ & _ & ->) | [(_ & o & rest & _ & ->) | (_ & ->)]]; simpl;
    [reflexivity | |]; rewrite lookup_insert_eq; reflexivity.
Qed.
End MemoryCall.

(** ** The exits of [checkRateLimitRedis] *)

Lemma zinsert_In e zs x : In x (zinsert e zs) <-> x = e \/ In x zs.
Proof.
  induction zs as [|z zs IH]; simpl; [intuition|].
  destruct (score e <? score z); simpl; rewrite ?IH; intuition.
Qed.

Lemma pruneEntries_In ws zs e :
  In e (pruneEntries ws zs) <-> In e zs /\ ws < score e.
Proof. unfold pruneEntries. rewrite filter_In, Z.ltb_lt. reflexivity. Qed.

Lemma pruneEntries_all_expired ws zs :
  Forall (fun e => score e <= ws) zs -> pruneEntries ws zs = [].
Proof.
  unfold pruneEntries. induction 1 as [|e zs He _ IH]; simpl; [reflexivity|].
  destruct (ws <? score e) eqn:E; [apply Z.ltb_lt in E; lia | exact IH].
Qed.

(** Every run of the function returns a Decision; which one, and what is
    left in the sorted sets, is decided by the fault schedule and by the
    comparison.  A call that passes the comparison ends in [zAdd], which
    throws: it fails open and leaves the pruned sorted set. *)
Lemma checkRateLimitRedis_spec key maxRequests windowMs weight' now rnd c :
  let rk := redisKeyOf key in
  let kept := pruneEntries (now - windowMs) (zset_of c rk) in
  let out := checkRateLimitRedis key maxRequests windowMs weight' now rnd c in
  if healthy 4 (faults c) then
    if maxRequests <? Z.of_nat (length kept) + weight' then
      out.1 = Returned (redisDenied windowMs now kept) /\
      zsets out.2 = <[rk := kept]> (zsets c)
    else
      out.1 = Returned (failOpen maxRequests windowMs now) /\
      zsets out.2 = <[rk := kept]> (zsets c)
  else
    out.1 = Returned (failOpen maxRequests windowMs now) /\
    (zsets out.2 = zsets c \/ zsets out.2 = <[rk := kept]> (zsets c)).
Proof.
  intros rk kept out. subst out kept rk.
  unfold checkRateLimitRedis, try_catch, checkRateLimitRedis_try, bind,
    zRemRangeByScore, zCard, zRange, zAdd, expire, command, ret,
    redisDenied, failOpen, pruneEntries.
  generalize (redisKeyOf key) as rk. intros rk.
  destruct c as [zs ex fs].
  destruct fs as [|[] [|[] [|[] [|[] fs]]]];
    unfold zset_of, faulty, advance, set_zset, set_faults; simpl;
    rewrite ?lookup_insert_eq; simpl.
  all: try (destruct (maxRequests <? _) eqn:E; simpl; rewrite ?lookup_insert_eq; simpl).
  all: repeat match goal with
       | |- context [match ?l with [] => _ | _ :: _ => _ end] =>
           destruct l eqn:?; simpl
       end.
  all: rewrite ?insert_insert_eq.
  all: try (split; [reflexivity | auto]).
Qed.

(** The [try] block throws when a fault is scheduled for one of the first
    two commands, when the comparison lets the call pass, which takes it to
    [zAdd], and when a fault is scheduled for one of the two commands of the
    denial. *)
Lemma checkRateLimitRedis_try_throws key maxRequests windowMs weight' now rnd c :
  let kept := pruneEntries (now - windowMs) (zset_of c (redisKeyOf key)) in
  (exists e, (checkRateLimitRedis_try key maxRequests windowMs weight' now rnd c).1
             = Threw e)
  <-> healthy 4 (faults c) = false \/
      Z.of_nat (length kept) + weight' <= maxRequests.
Proof.
  intros kept. subst kept.
  unfold checkRateLimitRedis_try, bind,
    zRemRangeByScore, zCard, zRange, zAdd, expire, command, ret, pruneEntries.
  generalize (redisKeyOf key) as rk. intros rk.
  destruct c as [zs ex fs].
  destruct fs as [|[] [|[] [|[] [|[] fs]]]];
    unfold zset_of, faulty, advance, set_zset, set_faults; simpl;
    rewrite ?lookup_insert_eq; simpl.
  all: try (destruct (maxRequests <? _) eqn:E; simpl; rewrite ?lookup_insert_eq; simpl).
  all: repeat match goal with
       | |- context [match ?l with [] => _ | _ :: _ => _ end] =>
           destruct l eqn:?; simpl
       end.
  all: try (apply Z.ltb_lt in E); try (apply Z.ltb_ge in E).
  all: split; [intros [e H] | intros [H|H]];
       try (left; reflexivity); try (right; lia);
       try discriminate H; try (eexists; reflexivity); try (simpl in *; lia).
Qed.

(** Whenever the [try] block throws, whatever the error, the call returns
    the fail-open Decision. *)
Lemma checkRateLimitRedis_fails_open key maxRequests windowMs weight' now rnd c e :
  (checkRateLimitRedis_try key maxRequests windowMs weight' now rnd c).1 = Threw e ->
  (checkRateLimitRedis key maxRequests windowMs weight' now rnd c).1
  = Returned (failOpen maxRequests windowMs now).
Proof.
  unfold checkRateLimitRedis, try_catch, ret.
  destruct (checkRateLimitRedis_try _ _ _ _ _ _ c) as [[d|e'] c']; simpl;
    [discriminate | reflexivity].
Qed.

(** An allowed Decision of the Redis path is the fail-open one. *)
Lemma checkRateLimitRedis_allowed key maxRequests windowMs weight' now rnd c d :
  (checkRateLimitRedis key maxRequests windowMs weight' now rnd c).1 = Returned d ->
  allowed d = true ->
  d = failOpen maxRequests windowMs now.
Proof.
  intros Hd Ha.
  pose proof (checkRateLimitRedis_spec key maxRequests windowMs weight' now rnd c) as H.
  cbv zeta in H.
  destruct (healthy 4 (faults c)); [destruct (maxRequests <? _)|];
    destruct H as [H _]; rewrite H in Hd; inversion Hd; subst; [discriminate| |];
    reflexivity.
Qed.

(** ** Routing *)

Lemma checkRateLimit_redis l c key maxRequests windowMs weight' now rnd :
  redisClient l = Some c ->
  checkRateLimit l key maxRequests windowMs weight' now rnd
  = let out := checkRateLimitRedis key maxRequests windowMs weight' now rnd c in
    (out.1, {| redisClient := Some out.2;
               initialized := initialized l;
               inMemoryStore := inMemoryStore l |}).
Proof.
  intros Hc. unfold checkRateLimit. rewrite Hc.
  destruct (checkRateLimitRedis _ _ _ _ _ _ c). reflexivity.
Qed.

Lemma checkRateLimit_memory l key maxRequests windowMs weight' now rnd :
  redisClient l = None ->
  checkRateLimit l key maxRequests windowMs weight' now rnd
  = let out := checkRateLimitMemory (inMemoryStore l) key
                 maxRequests windowMs weight' now in
    (out.1, {| redisClient := None;
               initialized := initialized l;
               inMemoryStore := out.2 |}).
Proof.
  intros Hc. unfold checkRateLimit. rewrite Hc.
  destruct (checkRateLimitMemory _ _ _ _ _ _). reflexivity.
Qed.

(** A call whose weight exceeds the limit and that finds no live event in
    the in-memory store ends in the exception, whatever the state. *)
Lemma overweight_memory_throws l key maxRequests windowMs weight' now rnd :
  redisClient l = None ->
  pruneRequests (now - windowMs) (requestsOf (inMemoryStore l) key) = [] ->
  maxRequests < weight' ->
  checkRateLimit l key maxRequests windowMs weight' now rnd = (Threw TypeError, l).
Proof.
  intros Hc Hnil Hlt. rewrite checkRateLimit_memory by exact Hc.
  destruct (checkRateLimitMemory_cases (inMemoryStore l) key
              maxRequests windowMs weight' now)
    as [(_ & _ & ->) | [(_ & o & rest & Hp & _) | (Hle & _)]].
  - destruct l; simpl in *; subst; reflexivity.
  - rewrite Hnil in Hp. discriminate.
  - rewrite Hnil, sumWeights_nil in Hle. lia.
Qed.

(** On the Redis path the same call is denied. *)
Lemma overweight_redis_denied l c key maxRequests windowMs weight' now rnd :
  redisClient l = Some c ->
  healthy 4 (faults c) = true ->
  maxRequests < weight' ->
  exists d, (checkRateLimit l key maxRequests windowMs weight' now rnd).1 = Returned d
            /\ allowed d = false.
Proof.
  intros Hc Hh Hlt. rewrite checkRateLimit_redis with (c := c) by exact Hc.
  pose proof (checkRateLimitRedis_spec key maxRequests windowMs weight' now rnd c) as H.
  cbv zeta in H. rewrite Hh in H.
  destruct (maxRequests <? _) eqn:E.
  - destruct H as [H _]. simpl. rewrite H. eexists. split; reflexivity.
  - apply Z.ltb_ge in E. lia.
Qed.

(** A call that ends in the exception leaves the whole state as it was. *)
Lemma thrown_call_changes_nothing l key maxRequests windowMs weight' now rnd e l' :
  checkRateLimit l key maxRequests windowMs weight' now rnd = (Threw e, l') ->
  redisClient l = None /\ e = TypeError /\ l' = l /\ maxRequests < weight'.
Proof.
  intros Hcall. destruct (redisClient l) as [c|] eqn:Hc.
  - rewrite checkRateLimit_redis with (c := c) in Hcall by exact Hc.
    cbv zeta in Hcall. injection Hcall as Hr _.
    pose proof (checkRateLimitRedis_spec key maxRequests windowMs weight' now rnd c) as H.
    cbv zeta in H. rewrite Hr in H.
    destruct (healthy 4 (faults c)); [destruct (maxRequests <? _)|];
      destruct H as [H _]; discriminate H.
  - rewrite checkRateLimit_memory in Hcall by exact Hc.
    cbv zeta in Hcall. injection Hcall as Hr <-.
    destruct (checkRateLimitMemory (inMemoryStore l) key maxRequests windowMs weight' now)
      as [r st'] eqn:E. simpl in Hr. subst r.
    apply checkRateLimitMemory_threw in E. destruct E as (-> & -> & _ & Hlt).
    simpl. repeat split; [|exact Hlt].
    destruct l; simpl in *; subst; reflexivity.
Qed.

(** C2: a call with weight > maxRequests is to be denied with a Decision
    whatever the usage, also for a key without recorded events.  On the
    in-memory path the call with weight 2 and limit 1 on a key that has no
    events does not return a Decision: it throws TypeError, and leaves the
    state as it was. *)
Theorem C2_overweight_on_fresh_key_throws :
  checkRateLimit freshLimiter "k" 1 60000 2 1000 0 = (Threw TypeError, freshLimiter).
Proof. apply overweight_memory_throws; [reflexivity | reflexivity | lia]. Qed.

(** C3: fail-open on backend outage.  When the call is routed to Redis and
    one of the commands it issues fails, the call returns the Decision
    allowed = true, remaining = maxRequests, without retryAfter: the error
    does not reach the caller. *)
Theorem C3_fail_open l c key maxRequests windowMs weight' now rnd :
  redisClient l = Some c ->
  healthy 4 (faults c) = false ->
  (checkRateLimit l key maxRequests windowMs weight' now rnd).1
  = Returned {| allowed := true;
                remaining := maxRequests;
                resetTime := now + windowMs;
                retryAfter := None |}.
Proof.
  intros Hc Hh. rewrite checkRateLimit_redis with (c := c) by exact Hc.
  pose proof (checkRateLimitRedis_spec key maxRequests windowMs weight' now rnd c) as H.
  cbv zeta in H. rewrite Hh in H. destruct H as [H _]. exact H.
Qed.

Lemma C3_fail_open_witness :
  (checkRateLimit
     {| redisClient := Some {| zsets := ∅; expiry := ∅; faults := [false; true] |};
        initialized := true; inMemoryStore := ∅ |}
     "admin:abc" 10 60000 1 1000 0).1
  = Returned {| allowed := true; remaining := 10;
                resetTime := 1000 + 60000; retryAfter := None |}.
Proof.
  apply (C3_fail_open _ {| zsets := ∅; expiry := ∅; faults := [false; true] |});
    reflexivity.
Defined.

(** ** The selector *)

(** [checkRateLimit] never assigns [redisClient]: a limiter with a client
    keeps one, a limiter without a client stays without. *)
Lemma checkRateLimit_selector l key maxRequests windowMs weight' now rnd :
  let l' := (checkRateLimit l key maxRequests windowMs weight' now rnd).2 in
  (redisClient l = None <-> redisClient l' = None) /\
  initialized l' = initialized l.
Proof.
  unfold checkRateLimit. destruct (redisClient l) as [c|] eqn:Hc.
  - destruct (checkRateLimitRedis _ _ _ _ _ _ c). simpl. split; [split; discriminate | reflexivity].
  - destruct (checkRateLimitMemory _ _ _ _ _ _). simpl. split; [split; reflexivity | reflexivity].
Qed.

(** The selector is set once, by [initializeRateLimiter]: a failed connection
    leaves the module without client. *)
Lemma initializeRateLimiter_connect_failure url l :
  initialized l = false ->
  isSet url = true ->
  redisClient (initializeRateLimiter url None l) = None /\
  initialized (initializeRateLimiter url None l) = true.
Proof.
  intros H Hurl. unfold initializeRateLimiter. rewrite H, Hurl. split; reflexivity.
Qed.

(** Without REDIS_URL, or with the empty string for it, no client is
    created and a fresh module serves from the in-memory store. *)
Lemma initializeRateLimiter_without_url url connect :
  isSet url = false ->
  initializeRateLimiter url connect freshLimiter
  = {| redisClient := None; initialized := true; inMemoryStore := ∅ |}.
Proof. intros Hurl. unfold initializeRateLimiter. simpl. rewrite Hurl. reflexivity. Qed.

(** A run on a limiter with a client is the run of [checkRateLimitRedis] on
    that client; the in-memory store takes no part in it. *)
Lemma replay_redis cs : forall l c,
  redisClient l = Some c ->
  replay l cs =
    ((replayRedis c cs).1,
     {| redisClient := Some (replayRedis c cs).2;
        initialized := initialized l;
        inMemoryStore := inMemoryStore l |}).
Proof.
  induction cs as [|a cs IH]; intros l c Hc.
  - simpl. destruct l; simpl in *. subst. reflexivity.
  - simpl. unfold perform, performRedis.
    rewrite checkRateLimit_redis with (c := c) by exact Hc. cbv zeta.
    destruct (checkRateLimitRedis _ _ _ _ _ _ c) as [r c1]. simpl.
    rewrite (IH _ c1) by reflexivity. simpl.
    destruct (replayRedis c1 cs) as [log c2]. reflexivity.
Qed.

(** C4, as stated, fails.  The first call meets a Redis fault and fails
    open; [redisClient] is still set afterwards.  The second call is served
    by Redis again: it ends in [zAdd], fails open with the whole budget and
    leaves the in-memory store empty, where the in-memory store would have
    answered with a remaining budget of 9 and recorded the event. *)
Lemma C4_no_fallback_after_failure :
  let l0 := {| redisClient := Some {| zsets := ∅; expiry := ∅; faults := [true] |};
               initialized := true; inMemoryStore := ∅ |} in
  let first := checkRateLimit l0 "k" 10 60000 1 1000 0 in
  let second := checkRateLimit first.2 "k" 10 60000 1 2000 0 in
  first.1 = Returned (failOpen 10 60000 1000) /\
  redisClient first.2 <> None /\
  second.1 = Returned (failOpen 10 60000 2000) /\
  redisClient second.2 <> None /\
  inMemoryStore second.2 = ∅ /\
  checkRateLimitMemory (inMemoryStore first.2) "k" 10 60000 1 2000
  = (Returned {| allowed := true; remaining := 9;
                 resetTime := 62000; retryAfter := None |},
     {[ "k" := [ {| timestamp := 2000; weight := 1 |} ] ]}).
Proof. vm_compute. repeat split; discriminate. Qed.

(** C4, amended: a failure of a call on the Redis path leaves the selector
    where it was.  When the [try] block of the call throws, the call fails
    open, [redisClient] stays set, the in-memory store is untouched, and
    every run of later calls is the run of [checkRateLimitRedis] on that
    client, with the client still set and the in-memory store still
    untouched at its end. *)
Theorem C4_selector_stays_shared l c key maxRequests windowMs weight' now rnd e :
  redisClient l = Some c ->
  (checkRateLimitRedis_try key maxRequests windowMs weight' now rnd c).1 = Threw e ->
  let out := checkRateLimit l key maxRequests windowMs weight' now rnd in
  out.1 = Returned (failOpen maxRequests windowMs now) /\
  exists c',
    redisClient out.2 = Some c' /\
    inMemoryStore out.2 = inMemoryStore l /\
    forall cs,
      let run := replay out.2 cs in
      run.1 = (replayRedis c' cs).1 /\
      redisClient run.2 = Some (replayRedis c' cs).2 /\
      inMemoryStore run.2 = inMemoryStore l.
Proof.
  intros Hc Hthrow out. subst out.
  rewrite checkRateLimit_redis with (c := c) by exact Hc. cbv zeta. simpl.
  split; [eapply checkRateLimitRedis_fails_open, Hthrow|].
  eexists. split; [reflexivity|]. split; [reflexivity|].
  intros cs. erewrite replay_redis by reflexivity. simpl. auto.
Qed.

Lemma C4_selector_stays_shared_witness :
  let l0 := {| redisClient := Some {| zsets := ∅; expiry := ∅; faults := [true] |};
               initialized := true; inMemoryStore := ∅ |} in
  let out := checkRateLimit l0 "k" 10 60000 1 1000 0 in
  out.1 = Returned (failOpen 10 60000 1000) /\
  exists c',
    redisClient out.2 = Some c' /\
    inMemoryStore out.2 = inMemoryStore l0 /\
    forall cs,
      let run := replay out.2 cs in
      run.1 = (replayRedis c' cs).1 /\
      redisClient run.2 = Some (replayRedis c' cs).2 /\
      inMemoryStore run.2 = inMemoryStore l0.
Proof.
  intros l0.
  apply (C4_selector_stays_shared l0
           {| zsets := ∅; expiry := ∅; faults := [true] |}
           "k" 10 60000 1 1000 0 RedisError); reflexivity.
Defined.

(** ** Parameters are not validated *)

(** C5, as stated, fails: with weight, maxRequests and windowMs all zero the
    call on a fresh module is not rejected; it returns a Decision and
    records an event of weight zero. *)
Lemma C5_zero_parameters_accepted :
  let out := checkRateLimit freshLimiter "k" 0 0 0 1000 0 in
  out.1 = Returned {| allowed := true; remaining := 0;
                      resetTime := 1000; retryAfter := None |} /\
  inMemoryStore out.2 !! "k" = Some [{| timestamp := 1000; weight := 0 |}].
Proof. vm_compute. split; reflexivity. Qed.

(** C5, amended: [checkRateLimit] does not validate its parameters.  A call
    with a non-positive weight, maxRequests or windowMs is routed to the
    active store like any other.  On the Redis path it returns a Decision.
    On the in-memory path, when the admission test passes or the pruned
    array is not empty, it returns a Decision and writes the array of the
    key: the pruned array, with the new event appended when admitted. *)
Theorem C5_no_validation l key maxRequests windowMs weight' now rnd :
  weight' <= 0 \/ maxRequests <= 0 \/ windowMs <= 0 ->
  let out := checkRateLimit l key maxRequests windowMs weight' now rnd in
  let pruned := pruneRequests (now - windowMs) (requestsOf (inMemoryStore l) key) in
  match redisClient l with
  | Some _ => exists d, out.1 = Returned d
  | None =>
      sumWeights pruned + weight' <= maxRequests \/ pruned <> [] ->
      exists d, out.1 = Returned d /\
        inMemoryStore out.2 !! key =
          Some (if allowed d
                then pruned ++ [{| timestamp := now; weight := weight' |}]
                else pruned)
  end.
Proof.
  intros _ out pruned. subst out pruned.
  destruct (redisClient l) as [c|] eqn:Hc.
  - rewrite checkRateLimit_redis with (c := c) by exact Hc.
    pose proof (checkRateLimitRedis_spec key maxRequests windowMs weight' now rnd c) as H.
    cbv zeta in H. simpl.
    destruct (healthy 4 (faults c)); [destruct (maxRequests <? _)|];
      destruct H as [H _]; eauto.
  - rewrite checkRateLimit_memory by exact Hc. cbv zeta. simpl.
    intros Hok.
    destruct (checkRateLimitMemory_cases (inMemoryStore l) key
                maxRequests windowMs weight' now)
      as [(Hlt & Hnil & _) | [(_ & o & rest & Hp & ->) | (_ & ->)]].
    + destruct Hok as [Hle | Hne]; [lia | contradiction].
    + eexists. split; [reflexivity|]. simpl. apply lookup_insert_eq.
    + eexists. split; [reflexivity|]. simpl. apply lookup_insert_eq.
Qed.

Lemma C5_no_validation_witness :
  exists d,
    (checkRateLimit freshLimiter "k" 5 (-1) (-2) 1000 0).1 = Returned d /\
    inMemoryStore (checkRateLimit freshLimiter "k" 5 (-1) (-2) 1000 0).2 !! "k" =
      Some (if allowed d
            then pruneRequests (1000 - (-1)) (requestsOf (inMemoryStore freshLimiter) "k")
                 ++ [{| timestamp := 1000; weight := -2 |}]
            else pruneRequests (1000 - (-1)) (requestsOf (inMemoryStore freshLimiter) "k")).
Proof.
  apply (C5_no_validation freshLimiter "k" 5 (-1) (-2) 1000 0).
  - left. lia.
  - left. vm_compute. discriminate.
Defined.

(** ** Denied calls *)

(** C6: denial atomicity.  A call that returns allowed = false records no
    event: the events of the key afterwards are those it had before, less
    the expired ones that pruning removed, and nothing else in either store
    changes. *)
Theorem C6_denial_records_nothing l key maxRequests windowMs weight' now rnd d l' :
  checkRateLimit l key maxRequests windowMs weight' now rnd = (Returned d, l') ->
  allowed d = false ->
  match redisClient l with
  | None =>
      redisClient l' = None /\
      inMemoryStore l' =
        <[key := pruneRequests (now - windowMs) (requestsOf (inMemoryStore l) key)]>
          (inMemoryStore l)
  | Some c =>
      inMemoryStore l' = inMemoryStore l /\
      exists c', redisClient l' = Some c' /\
        zsets c' =
          <[redisKeyOf key := pruneEntries (now - windowMs) (zset_of c (redisKeyOf key))]>
            (zsets c)
  end.
Proof.
  intros Hcall Hd.
  destruct (redisClient l) as [c|] eqn:Hc.
  - rewrite checkRateLimit_redis with (c := c) in Hcall by exact Hc.
    cbv zeta in Hcall. injection Hcall as Hr <-. simpl.
    split; [reflexivity|]. eexists. split; [reflexivity|].
    pose proof (checkRateLimitRedis_spec key maxRequests windowMs weight' now rnd c) as H.
    cbv zeta in H. rewrite Hr in H.
    destruct (healthy 4 (faults c)); [destruct (maxRequests <? _)|];
      destruct H as [[= H] Hz]; subst d; try discriminate Hd.
    exact Hz.
  - rewrite checkRateLimit_memory in Hcall by exact Hc.
    cbv zeta in Hcall. injection Hcall as Hr <-. simpl.
    split; [reflexivity|].
    destruct (checkRateLimitMemory (inMemoryStore l) key maxRequests windowMs weight' now)
      as [r st'] eqn:E. simpl in *. subst r.
    apply checkRateLimitMemory_denied in E; [|exact Hd].
    destruct E as (_ & -> & _). reflexivity.
Qed.

Lemma C6_denial_records_nothing_witness :
  let l := {| redisClient := None; initialized := true;
              inMemoryStore := {[ "k" := [ {| timestamp := 100; weight := 1 |};
                                           {| timestamp := 900; weight := 1 |} ] ]} |} in
  redisClient (checkRateLimit l "k" 1 500 1 1000 0).2 = None /\
  inMemoryStore (checkRateLimit l "k" 1 500 1 1000 0).2 =
    <["k" := pruneRequests (1000 - 500) (requestsOf (inMemoryStore l) "k")]>
      (inMemoryStore l).
Proof.
  intros l.
  apply (C6_denial_records_nothing l "k" 1 500 1 1000 0
           {| allowed := false; remaining := 0; resetTime := 2000; retryAfter := Some 1 |});
    reflexivity.
Defined.

(** C7, as stated, fails for a negative window length, which the code
    accepts.  On the Redis path the call with limit 1, weight 2 and
    windowMs = -1000 on a key without entries is denied with retryAfter 0,
    and ceil(windowMs / 1000) is -1. *)
Lemma C7_negative_window_exceeds_bound :
  let l := {| redisClient := Some {| zsets := ∅; expiry := ∅; faults := [] |};
              initialized := true; inMemoryStore := ∅ |} in
  recordedNotAfter 1000 l "k" /\
  (checkRateLimit l "k" 1 (-1000) 2 1000 0).1
  = Returned {| allowed := false; remaining := 0;
                resetTime := 1000; retryAfter := Some 0 |} /\
  Math_ceil_div (-1000) 1000 = -1.
Proof.
  split; [|split; vm_compute; reflexivity].
  unfold recordedNotAfter, zNotAfter. simpl. constructor.
Qed.

(** C7, amended: retryAfter is present only in a denial, and in every denial
    of a call whose window length is not negative it lies between 0 and
    ceil(windowMs / 1000), provided the recorded events of the key are not
    dated after the current time. *)
Theorem C7_retryAfter_sanity l key maxRequests windowMs weight' now rnd d l' :
  checkRateLimit l key maxRequests windowMs weight' now rnd = (Returned d, l') ->
  (allowed d = true -> retryAfter d = None) /\
  (allowed d = false ->
   recordedNotAfter now l key ->
   0 <= windowMs ->
   exists r, retryAfter d = Some r /\ 0 <= r <= Math_ceil_div windowMs 1000).
Proof.
  intros Hcall. unfold recordedNotAfter.
  destruct (redisClient l) as [c|] eqn:Hc.
  - rewrite checkRateLimit_redis with (c := c) in Hcall by exact Hc.
    cbv zeta in Hcall. injection Hcall as Hr _.
    pose proof (checkRateLimitRedis_spec key maxRequests windowMs weight' now rnd c) as H.
    cbv zeta in H. rewrite Hr in H.
    destruct (healthy 4 (faults c)); [destruct (maxRequests <? _)|];
      destruct H as [[= H] _]; subst d; simpl;
      (split; [try reflexivity; discriminate | try discriminate]).
    intros _ Hrec HW. eexists. split; [reflexivity|].
    destruct (pruneEntries _ _) as [|e kept] eqn:Ek.
    + split; [lia|]. apply Math_ceil_div_nonneg; lia.
    + assert (In e (pruneEntries (now - windowMs) (zset_of c (redisKeyOf key)))) as Hin
        by (rewrite Ek; left; reflexivity).
      apply pruneEntries_In in Hin. destruct Hin as [Hin Hlive].
      unfold zNotAfter in Hrec. rewrite List.Forall_forall in Hrec.
      destruct (Hrec e Hin) as [-> Hpast].
      split.
      * apply Z.lt_le_incl, Math_ceil_div_lower; lia.
      * apply Math_ceil_div_mono; lia.
  - rewrite checkRateLimit_memory in Hcall by exact Hc.
    cbv zeta in Hcall. injection Hcall as Hr _.
    destruct (checkRateLimitMemory_cases (inMemoryStore l) key
                maxRequests windowMs weight' now)
      as [(_ & _ & E) | [(_ & o & rest & Hp & E) | (_ & E)]];
      rewrite E in Hr; simpl in Hr; try discriminate Hr;
      injection Hr as <-; simpl;
      (split; [try reflexivity; discriminate | try discriminate]).
    intros _ Hrec HW. eexists. split; [reflexivity|].
    assert (In o (pruneRequests (now - windowMs) (requestsOf (inMemoryStore l) key)))
      as Hin by (rewrite Hp; left; reflexivity).
    apply pruneRequests_In in Hin. destruct Hin as [Hin Hlive].
    unfold notAfter in Hrec. rewrite List.Forall_forall in Hrec.
    specialize (Hrec o Hin). simpl in Hrec.
    split.
    + apply Z.lt_le_incl, Math_ceil_div_lower; lia.
    + apply Math_ceil_div_mono; lia.
Qed.

Lemma C7_retryAfter_sanity_witness :
  exists r, Some 1 = Some r /\ 0 <= r <= Math_ceil_div 500 1000.
Proof.
  pose (l := {| redisClient := None; initialized := true;
                inMemoryStore := {[ "k" := [ {| timestamp := 100; weight := 1 |};
                                             {| timestamp := 900; weight := 1 |} ] ]} |}).
  assert (requestsOf (inMemoryStore l) "k"
          = [ {| timestamp := 100; weight := 1 |}; {| timestamp := 900; weight := 1 |} ])
    as Hk by reflexivity.
  refine (proj2 (C7_retryAfter_sanity l "k" 1 500 1 1000 0
                   {| allowed := false; remaining := 0;
                      resetTime := 2000; retryAfter := Some 1 |}
                   _ eq_refl) eq_refl _ _).
  - unfold recordedNotAfter, notAfter. simpl redisClient. cbv iota. rewrite Hk.
    repeat constructor; simpl; lia.
  - lia.
Defined.

(** ** Expiry *)

Lemma checkRateLimitMemory_notAfter st key maxRequests windowMs weight' now :
  notAfter now (requestsOf st key) ->
  notAfter now
    (requestsOf (checkRateLimitMemory st key maxRequests windowMs weight' now).2 key).
Proof.
  intros H. rewrite checkRateLimitMemory_own.
  destruct (checkRateLimitMemory _ _ _ _ _ _).1 as [d|e]; [|exact H].
  destruct (allowed d).
  - apply Forall_app. split; [apply pruneRequests_Forall, H|].
    constructor; [simpl; lia | constructor].
  - apply pruneRequests_Forall, H.
Qed.

(** The Redis path keeps the same property: a call adds no entry. *)
Lemma checkRateLimitRedis_zNotAfter key maxRequests windowMs weight' now rnd c :
  zNotAfter now (zset_of c (redisKeyOf key)) ->
  zNotAfter now
    (zset_of (checkRateLimitRedis key maxRequests windowMs weight' now rnd c).2
       (redisKeyOf key)).
Proof.
  unfold zNotAfter. intros H.
  assert (Forall (fun e => parseInt (member e) = score e /\ score e <= now)
            (pruneEntries (now - windowMs) (zset_of c (redisKeyOf key)))) as Hkept.
  { rewrite List.Forall_forall in *. intros e He.
    apply pruneEntries_In in He. apply H, He. }
  pose proof (checkRateLimitRedis_spec key maxRequests windowMs weight' now rnd c) as S.
  cbv zeta in S. unfold zset_of at 1.
  destruct (healthy 4 (faults c)); [destruct (maxRequests <? _)|].
  - destruct S as [_ ->]. rewrite lookup_insert_eq. exact Hkept.
  - destruct S as [_ ->]. rewrite lookup_insert_eq. exact Hkept.
  - destruct S as [_ [-> | ->]]; rewrite ?lookup_insert_eq; auto.
Qed.

(** C8: expiry.  With maxRequests = 1 and weight = 1, when a call at time t
    is allowed, the next call for the key, made at t + windowMs + 1, is
    allowed as well.  As everywhere, the recorded events of the key are not
    dated after the time of the first call. *)
Theorem C8_expired_event_frees_the_window l key windowMs t rnd rnd' d l' :
  recordedNotAfter t l key ->
  checkRateLimit l key 1 windowMs 1 t rnd = (Returned d, l') ->
  allowed d = true ->
  exists d' l'',
    checkRateLimit l' key 1 windowMs 1 (t + windowMs + 1) rnd' = (Returned d', l'')
    /\ allowed d' = true.
Proof.
  intros Hrec Hcall _. unfold recordedNotAfter in Hrec.
  destruct (redisClient l) as [c|] eqn:Hc.
  - rewrite checkRateLimit_redis with (c := c) in Hcall by exact Hc.
    cbv zeta in Hcall. injection Hcall as _ <-.
    set (c1 := (checkRateLimitRedis key 1 windowMs 1 t rnd c).2).
    assert (Forall (fun e => score e <= t) (zset_of c1 (redisKeyOf key))) as Hpast.
    { pose proof (checkRateLimitRedis_zNotAfter key 1 windowMs 1 t rnd c Hrec) as H1.
      unfold zNotAfter in H1. rewrite List.Forall_forall in *.
      intros e He. apply H1, He. }
    erewrite checkRateLimit_redis by reflexivity. cbv zeta.
    pose proof (checkRateLimitRedis_spec key 1 windowMs 1 (t + windowMs + 1) rnd' c1) as S.
    cbv zeta in S.
    rewrite pruneEntries_all_expired in S.
    2:{ rewrite List.Forall_forall in *. intros e He. specialize (Hpast e He). lia. }
    simpl length in S. simpl (1 <? _) in S.
    destruct (healthy 4 (faults c1)); destruct S as [S _]; rewrite S;
      eexists; eexists; split; reflexivity.
  - rewrite checkRateLimit_memory in Hcall by exact Hc.
    cbv zeta in Hcall. injection Hcall as _ <-.
    pose proof (checkRateLimitMemory_notAfter (inMemoryStore l) key 1 windowMs 1 t Hrec)
      as Hpast.
    set (st1 := (checkRateLimitMemory (inMemoryStore l) key 1 windowMs 1 t).2) in *.
    erewrite checkRateLimit_memory by reflexivity. cbv zeta. simpl inMemoryStore.
    assert (pruneRequests (t + windowMs + 1 - windowMs) (requestsOf st1 key) = [])
      as Hnil.
    { apply pruneRequests_all_expired.
      unfold notAfter in Hpast. rewrite List.Forall_forall in *.
      intros r Hr. specialize (Hpast r Hr). simpl in Hpast. lia. }
    destruct (checkRateLimitMemory_cases st1 key 1 windowMs 1 (t + windowMs + 1))
      as [(Hlt & _ & _) | [(_ & o & rest & Hp & _) | (_ & ->)]].
    + rewrite Hnil, sumWeights_nil in Hlt. lia.
    + rewrite Hnil in Hp. discriminate.
    + eexists; eexists; split; reflexivity.
Qed.

Lemma C8_expired_event_frees_the_window_witness :
  exists d' l'',
    checkRateLimit (checkRateLimit freshLimiter "k" 1 60000 1 1000 0).2
      "k" 1 60000 1 (1000 + 60000 + 1) 0 = (Returned d', l'')
    /\ allowed d' = true.
Proof.
  refine (C8_expired_event_frees_the_window freshLimiter "k" 60000 1000 0 0
            {| allowed := true; remaining := 0; resetTime := 61000; retryAfter := None |}
            _ _ eq_refl eq_refl).
  unfold recordedNotAfter, notAfter. simpl. constructor.
Defined.

(** ** Status *)

(** C9, as stated, fails: an event recorded at time 0 for a window of one
    second is still counted by the status read at time 5000, although it is
    outside that window then and a check at that time counts nothing. *)
Lemma C9_status_counts_expired_event :
  let l1 := (checkRateLimit freshLimiter "k" 10 1000 1 0 0).2 in
  (getRateLimitStatus l1 "k" 5000).1
    = Returned {| currentUsage := 1; statusTimestamp := 5000 |} /\
  sumWeights (pruneRequests (5000 - 1000) (requestsOf (inMemoryStore l1) "k")) = 0.
Proof. vm_compute. split; reflexivity. Qed.

(** C9, amended: [getRateLimitStatus] does not change what is stored, and
    the usage it reports is computed without pruning: on the in-memory path
    the sum of the weights of all events stored for the key, expired ones
    included; on the Redis path the number of members of the sorted set. *)
Theorem C9_status_reads_stored_events l key now :
  let out := getRateLimitStatus l key now in
  match redisClient l with
  | None =>
      out = (Returned {| currentUsage := sumWeights (requestsOf (inMemoryStore l) key);
                         statusTimestamp := now |}, l)
  | Some c =>
      inMemoryStore out.2 = inMemoryStore l /\
      (exists c', redisClient out.2 = Some c' /\
                  zsets c' = zsets c /\ expiry c' = expiry c) /\
      forall s, out.1 = Returned s ->
        s = {| currentUsage := Z.of_nat (length (zset_of c (redisKeyOf key)));
               statusTimestamp := now |}
  end.
Proof.
  unfold getRateLimitStatus. destruct (redisClient l) as [c|] eqn:Hc; [|reflexivity].
  unfold zCard, command. destruct (faulty c); simpl.
  - split; [reflexivity|]. split; [eexists; repeat split|]. discriminate.
  - split; [reflexivity|]. split; [eexists; repeat split|].
    intros s [= <-]. reflexivity.
Qed.

(** ** Runs of calls on the in-memory store *)

Lemma replay_memory l cs :
  redisClient l = None ->
  replay l cs =
    ((replayMemory (inMemoryStore l) cs).1,
     {| redisClient := None;
        initialized := initialized l;
        inMemoryStore := (replayMemory (inMemoryStore l) cs).2 |}).
Proof.
  revert l. induction cs as [|c cs IH]; intros l Hc; simpl.
  - destruct l; simpl in *; subst; reflexivity.
  - unfold perform, performMemory.
    rewrite checkRateLimit_memory by exact Hc. cbv zeta.
    destruct (checkRateLimitMemory _ _ _ _ _ _) as [r st'].
    rewrite IH by reflexivity. simpl.
    destruct (replayMemory st' cs) as [log st'']. reflexivity.
Qed.

Lemma clockFrom_app t cs1 cs2 :
  clockFrom t (cs1 ++ cs2) = clockFrom t cs1 && clockFrom (lastTime t cs1) cs2.
Proof.
  revert t. induction cs1 as [|c cs1 IH]; intros t; simpl; [reflexivity|].
  rewrite IH. unfold lastTime. simpl. rewrite andb_assoc. reflexivity.
Qed.

Lemma notAfter_weaken t t' l : t <= t' -> notAfter t l -> notAfter t' l.
Proof.
  unfold notAfter. intros Hle H. rewrite List.Forall_forall in *.
  intros r Hr. specialize (H r Hr). simpl in H. lia.
Qed.

(** *** Chronological order *)

Lemma tidy_empty t : tidy t ∅.
Proof. intros key. unfold requestsOf. rewrite lookup_empty. split; constructor. Qed.

Lemma performMemory_tidy t st c :
  tidy t st -> t <= callNow c -> tidy (callNow c) (performMemory st c).2.
Proof.
  intros Ht Hle key. unfold performMemory.
  destruct (Ht key) as [Hs Hn]. apply (notAfter_weaken _ _ _ Hle) in Hn.
  destruct (decide (key = callKey c)) as [-> | Hne].
  - split; [|apply checkRateLimitMemory_notAfter, Hn].
    rewrite checkRateLimitMemory_own.
    destruct (checkRateLimitMemory _ _ _ _ _ _).1 as [d|e]; [|exact Hs].
    destruct (allowed d).
    + apply chronological_snoc.
      * apply pruneRequests_chronological, Hs.
      * apply pruneRequests_Forall, Hn.
    + apply pruneRequests_chronological, Hs.
  - rewrite checkRateLimitMemory_frame by exact Hne. split; assumption.
Qed.

Lemma replayMemory_tidy cs : forall t st,
  tidy t st -> clockFrom t cs = true -> tidy (lastTime t cs) (replayMemory st cs).2.
Proof.
  induction cs as [|c cs IH]; intros t st Ht Hclock; simpl; [exact Ht|].
  simpl in Hclock. apply andb_prop in Hclock. destruct Hclock as [H1 H2].
  apply Z.leb_le in H1.
  pose proof (performMemory_tidy t st c Ht H1) as Ht'.
  destruct (performMemory st c) as [r st']. simpl in Ht'.
  specialize (IH (callNow c) st' Ht' H2).
  destruct (replayMemory st' cs) as [log st'']. exact IH.
Qed.

Lemma chronological_head_oldest o rest :
  chronological (o :: rest) ->
  Forall (fun r => timestamp o <= timestamp r) (o :: rest).
Proof.
  unfold chronological. intros H. apply StronglySorted_inv in H.
  destruct H as [_ H]. constructor; [lia | exact H].
Qed.

(** C10: the events of every key are stored in chronological order.  From
    a store in that order, whatever calls were made since (the clock not
    running backwards), the array of every key is in non-decreasing
    timestamp order before and after the next call, and when that call is
    denied, [requests[0]], from which retryAfter is computed, is the oldest
    of the events still in the window. *)
Theorem C10_events_in_chronological_order l t cs c :
  redisClient l = None ->
  tidy t (inMemoryStore l) ->
  clockFrom t (cs ++ [c]) = true ->
  let l1 := (replay l cs).2 in
  let pruned := pruneRequests (callNow c - callWindow c)
                  (requestsOf (inMemoryStore l1) (callKey c)) in
  (forall key, chronological (requestsOf (inMemoryStore l1) key)) /\
  (forall key, chronological (requestsOf (inMemoryStore (perform l1 c).2) key)) /\
  (forall d, (perform l1 c).1 = Returned d -> allowed d = false ->
     exists oldestRequest rest,
       pruned = oldestRequest :: rest /\
       d = deniedDecision (callWindow c) (callNow c) oldestRequest /\
       Forall (fun r => timestamp oldestRequest <= timestamp r) pruned).
Proof.
  intros Hc Ht Hclock l1 pruned. subst l1 pruned.
  rewrite clockFrom_app in Hclock. apply andb_prop in Hclock.
  destruct Hclock as [Hcs Hlast]. simpl in Hlast.
  rewrite andb_true_r in Hlast. apply Z.leb_le in Hlast.
  rewrite replay_memory by exact Hc. simpl.
  pose proof (replayMemory_tidy cs t (inMemoryStore l) Ht Hcs) as Ht1.
  set (st1 := (replayMemory (inMemoryStore l) cs).2) in *.
  pose proof (performMemory_tidy _ st1 c Ht1 Hlast) as Ht2.
  unfold perform. rewrite checkRateLimit_memory by reflexivity. cbv zeta. simpl.
  split; [intros key; apply Ht1|].
  split; [intros key; apply Ht2|].
  intros d Hd Hden.
  destruct (checkRateLimitMemory st1 (callKey c) (callMax c) (callWindow c)
              (callWeight c) (callNow c)) as [r st2] eqn:E.
  simpl in Hd. subst r.
  apply checkRateLimitMemory_denied in E; [|exact Hden].
  destruct E as (_ & _ & o & rest & Hp & ->).
  exists o, rest. split; [exact Hp|]. split; [reflexivity|].
  rewrite Hp. apply chronological_head_oldest. rewrite <- Hp.
  apply pruneRequests_chronological, Ht1.
Qed.

Lemma C10_events_in_chronological_order_witness :
  let cs := [mkCall "k" 2 1000 1 100 0; mkCall "k" 2 1000 1 400 0] in
  let c := mkCall "k" 2 1000 1 700 0 in
  let l1 := (replay freshLimiter cs).2 in
  let pruned := pruneRequests (callNow c - callWindow c)
                  (requestsOf (inMemoryStore l1) (callKey c)) in
  (forall key, chronological (requestsOf (inMemoryStore l1) key)) /\
  (forall key, chronological (requestsOf (inMemoryStore (perform l1 c).2) key)) /\
  (forall d, (perform l1 c).1 = Returned d -> allowed d = false ->
     exists oldestRequest rest,
       pruned = oldestRequest :: rest /\
       d = deniedDecision (callWindow c) (callNow c) oldestRequest /\
       Forall (fun r => timestamp oldestRequest <= timestamp r) pruned).
Proof.
  intros cs c.
  apply (C10_events_in_chronological_order freshLimiter 0 cs c).
  - reflexivity.
  - apply tidy_empty.
  - reflexivity.
Defined.

(** ** The window bound *)

Lemma filter_length_le {A} (p q : A -> bool) (l : list A) :
  (forall x, p x = true -> q x = true) ->
  (length (List.filter p l) <= length (List.filter q l))%nat.
Proof.
  intros Hpq. induction l as [|x l IH]; simpl; [lia|].
  destruct (p x) eqn:Ep.
  - rewrite (Hpq x Ep). simpl. lia.
  - destruct (q x); simpl; lia.
Qed.

Lemma allowedWithin_snoc k lo hi log e :
  allowedWithin k lo hi (log ++ [e]) =
    (allowedWithin k lo hi log +
     if (allowedOn k e && (lo <=? callNow e.1) && (callNow e.1 <? hi))%Z
     then 1 else 0)%nat.
Proof.
  unfold allowedWithin. rewrite List.filter_app, length_app. simpl.
  destruct (allowedOn k e && _ && _); reflexivity.
Qed.

Lemma allowedAfter_snoc k tau log e :
  allowedAfter k tau (log ++ [e]) =
    (allowedAfter k tau log +
     if (allowedOn k e && (tau <? callNow e.1))%Z then 1 else 0)%nat.
Proof.
  unfold allowedAfter. rewrite List.filter_app, length_app. simpl.
  destruct (allowedOn k e && _); reflexivity.
Qed.

Lemma allowedWithin_le_after k lo hi tau log :
  tau < lo -> (allowedWithin k lo hi log <= allowedAfter k tau log)%nat.
Proof.
  intros Hlt. apply filter_length_le. intros e H.
  apply andb_prop in H. destruct H as [H _].
  apply andb_prop in H. destruct H as [Ha Hlo].
  rewrite Ha. simpl. apply Z.leb_le in Hlo. apply Z.ltb_lt. lia.
Qed.

Lemma pruneRequests_single tau now w :
  pruneRequests tau [{| timestamp := now; weight := w |}] =
    if tau <? now then [{| timestamp := now; weight := w |}] else [].
Proof. reflexivity. Qed.

Lemma requestsOf_insert_eq st key requests :
  requestsOf (<[key := requests]> st) key = requests.
Proof. unfold requestsOf. rewrite lookup_insert_eq. reflexivity. Qed.

Section WindowBound.
Variables (k : string) (M W : Z).

Local Abbreviation params := (usesParameters k M W).

(** One call keeps the account, and is admitted only when fewer than [M]
    calls were admitted in the window that ends with it. *)
Lemma performMemory_accounted t hist st c :
  accounted k W t hist st ->
  t <= callNow c ->
  params c ->
  accounted k W (callNow c) (hist ++ [(c, (performMemory st c).1)])
    (performMemory st c).2 /\
  (allowedOn k (c, (performMemory st c).1) = true ->
   Z.of_nat (allowedAfter k (callNow c - W) hist) + 1 <= M).
Proof.
  intros [Hw Hacc] Hle Hp. unfold performMemory, accounted.
  destruct (decide (callKey c = k)) as [Hk | Hk].
  - destruct (Hp Hk) as (-> & -> & ->). rewrite Hk.
    set (now := callNow c) in *.
    destruct (checkRateLimitMemory_cases st k M W 1 now)
      as [(_ & _ & E) | [(_ & o & rest & _ & E) | (Hadm & E)]].
    + (* thrown: nothing stored, nothing admitted *)
      rewrite E. simpl. split; [|unfold allowedOn; simpl; rewrite andb_false_r; discriminate].
      split; [exact Hw|]. intros tau Htau.
      rewrite allowedAfter_snoc. unfold allowedOn. simpl.
      rewrite andb_false_r. simpl. rewrite Nat.add_0_r. apply Hacc. lia.
    + (* denied: the pruned array is stored *)
      rewrite E. simpl. split; [|unfold allowedOn; simpl; rewrite andb_false_r; discriminate].
      rewrite !requestsOf_insert_eq.
      split; [apply pruneRequests_Forall, Hw|]. intros tau Htau.
      rewrite allowedAfter_snoc. unfold allowedOn. simpl.
      rewrite andb_false_r. simpl. rewrite Nat.add_0_r.
      rewrite pruneRequests_twice by lia. apply Hacc. lia.
    + (* admitted: the new event is appended *)
      rewrite E. simpl.
      rewrite sumWeights_unit in Hadm by (apply pruneRequests_Forall, Hw).
      split.
      * rewrite !requestsOf_insert_eq.
        split.
        { apply Forall_app. split; [apply pruneRequests_Forall, Hw|].
          constructor; [reflexivity | constructor]. }
        intros tau Htau.
        rewrite allowedAfter_snoc. unfold allowedOn. simpl.
        rewrite bool_decide_eq_true_2 by exact Hk. simpl.
        rewrite pruneRequests_app, length_app, pruneRequests_single.
        rewrite pruneRequests_twice by lia.
        rewrite (Hacc tau) by lia. fold now.
        destruct (tau <? now); reflexivity.
      * intros _. rewrite (Hacc (now - W)) by lia. lia.
  - rewrite checkRateLimitMemory_frame by congruence.
    assert (allowedOn k (c, (checkRateLimitMemory st (callKey c) (callMax c)
              (callWindow c) (callWeight c) (callNow c)).1) = false) as Hno.
    { unfold allowedOn. simpl. rewrite bool_decide_eq_false_2 by exact Hk. reflexivity. }
    split; [|rewrite Hno; discriminate].
    split; [exact Hw|]. intros tau Htau.
    rewrite allowedAfter_snoc, Hno. simpl. rewrite Nat.add_0_r. apply Hacc. lia.
Qed.

(** The bound carries over from a log to its extension by a run.  The
    bound [B] is the limit, or 0 for a negative limit. *)
Lemma replayMemory_window_bound B cs : forall t hist st,
  M <= B ->
  clockFrom t cs = true ->
  Forall params cs ->
  accounted k W t hist st ->
  (forall s, Z.of_nat (allowedWithin k s (s + W) hist) <= B) ->
  forall s,
    Z.of_nat (allowedWithin k s (s + W) (hist ++ (replayMemory st cs).1)) <= B.
Proof.
  induction cs as [|c cs IH]; intros t hist st HB Hclock Hps Hacc Hbound s; simpl.
  - rewrite app_nil_r. apply Hbound.
  - simpl in Hclock. apply andb_prop in Hclock. destruct Hclock as [H1 H2].
    apply Z.leb_le in H1.
    inversion Hps as [|? ? Hp Hps']; subst.
    destruct (performMemory_accounted t hist st c Hacc H1 Hp) as [Hacc' Hadm].
    destruct (performMemory st c) as [r st'] eqn:E. simpl in Hacc', Hadm.
    specialize (IH (callNow c) (hist ++ [(c, r)]) st' HB H2 Hps' Hacc').
    destruct (replayMemory st' cs) as [log st'']. simpl in *.
    replace (hist ++ (c, r) :: log) with ((hist ++ [(c, r)]) ++ log)
      by (rewrite <- app_assoc; reflexivity).
    apply IH. intros s'.
    rewrite allowedWithin_snoc. simpl.
    destruct (allowedOn k (c, r)) eqn:Ea; simpl; [|rewrite Nat.add_0_r; apply Hbound].
    destruct (s' <=? callNow c) eqn:Elo; simpl; [|rewrite Nat.add_0_r; apply Hbound].
    destruct (callNow c <? s' + W) eqn:Ehi; simpl; [|rewrite Nat.add_0_r; apply Hbound].
    apply Z.leb_le in Elo. apply Z.ltb_lt in Ehi.
    specialize (Hadm eq_refl).
    pose proof (allowedWithin_le_after k s' (s' + W) (callNow c - W) hist) as Hle.
    lia.
Qed.
End WindowBound.

Lemma monotoneClock_clockFrom cs :
  monotoneClock cs = true ->
  clockFrom (match cs with [] => 0 | c :: _ => callNow c end) cs = true.
Proof.
  destruct cs as [|c cs]; simpl; [reflexivity|].
  intros ->. rewrite andb_true_r. apply Z.leb_le. lia.
Qed.

(** C1, as stated, fails for a span of length W that contains both its
    ends: with a limit of one and a window of one second, the calls at
    times 0 and 1000 are both allowed, which makes two allowed calls at
    times t with 0 <= t <= 1000. *)
Lemma C1_closed_span_exceeds_limit :
  let log := (replay freshLimiter
                [mkCall "k" 1 1000 1 0 0; mkCall "k" 1 1000 1 1000 0]).1 in
  map (fun e => isAllowed e.2) log = [true; true] /\
  allowedWithinClosed "k" 0 (0 + 1000) log = 2%nat.
Proof. vm_compute. split; reflexivity. Qed.

(** C1, amended: the window bound of the in-memory store holds for spans
    that are open at their far end.  On a limiter without Redis client and
    without events for the key, for every run of calls whose clock does not
    run backwards and in which the calls on the key all use the limit M,
    the window W and weight 1, the number of calls on the key that return
    allowed = true at times t with s <= t < s + W is at most M, and zero
    when M is negative, for every s.  And after every allowed call the
    weights of the events stored for the key sum to at most the limit, and
    so do those of them that are in the window. *)
Theorem C1_window_bound l k M W cs :
  redisClient l = None ->
  requestsOf (inMemoryStore l) k = [] ->
  monotoneClock cs = true ->
  fixedParameters k M W cs ->
  (forall s, Z.of_nat (allowedWithin k s (s + W) (replay l cs).1) <= Z.max 0 M) /\
  (forall l1 now rnd d l2,
     redisClient l1 = None ->
     checkRateLimit l1 k M W 1 now rnd = (Returned d, l2) ->
     allowed d = true ->
     sumWeights (requestsOf (inMemoryStore l2) k) <= M /\
     sumWeights (pruneRequests (now - W) (requestsOf (inMemoryStore l2) k)) <= M).
Proof.
  intros Hc Hempty Hclock Hps. split.
  - intros s. rewrite replay_memory by exact Hc. simpl.
    apply (replayMemory_window_bound k M W (Z.max 0 M) cs _ [] (inMemoryStore l)
             (Z.le_max_r 0 M) (monotoneClock_clockFrom cs Hclock) Hps).
    + split; [rewrite Hempty; constructor|].
      intros tau _. rewrite Hempty. reflexivity.
    + intros s'. simpl. apply Z.le_max_l.
  - intros l1 now rnd d l2 Hc1 Hcall Hd.
    rewrite checkRateLimit_memory in Hcall by exact Hc1.
    cbv zeta in Hcall. injection Hcall as Hr <-. simpl.
    destruct (checkRateLimitMemory (inMemoryStore l1) k M W 1 now) as [r st'] eqn:E.
    simpl in *. subst r.
    apply checkRateLimitMemory_allowed in E; [|exact Hd].
    destruct E as (Hle & _ & ->).
    rewrite requestsOf_insert_eq. split.
    + rewrite sumWeights_app, sumWeights_cons, sumWeights_nil. simpl weight. lia.
    + rewrite pruneRequests_app, pruneRequests_twice by lia.
      rewrite pruneRequests_single, sumWeights_app.
      destruct (now - W <? now);
        [rewrite sumWeights_cons; simpl weight |]; rewrite sumWeights_nil; lia.
Qed.

Lemma C1_window_bound_witness :
  let cs := [mkCall "k" 2 1000 1 100 0; mkCall "other" 1 50 3 200 0;
             mkCall "k" 2 1000 1 400 0; mkCall "k" 2 1000 1 700 0;
             mkCall "k" 2 1000 1 1100 0] in
  (forall s, Z.of_nat (allowedWithin "k" s (s + 1000) (replay freshLimiter cs).1)
             <= Z.max 0 2) /\
  (forall l1 now rnd d l2,
     redisClient l1 = None ->
     checkRateLimit l1 "k" 2 1000 1 now rnd = (Returned d, l2) ->
     allowed d = true ->
     sumWeights (requestsOf (inMemoryStore l2) "k") <= 2 /\
     sumWeights (pruneRequests (now - 1000) (requestsOf (inMemoryStore l2) "k")) <= 2).
Proof.
  intros cs.
  apply (C1_window_bound freshLimiter "k" 2 1000 cs).
  - reflexivity.
  - reflexivity.
  - reflexivity.
  - unfold fixedParameters, cs.
    repeat constructor; simpl; intros; try discriminate; auto.
Defined.

(** The window is open at its far end: with a limit of one and a window of
    one second, a call 999 ms after an allowed one is denied and a call
    exactly 1000 ms after it is allowed. *)
Example window_far_end_is_open :
  map (fun e => isAllowed e.2)
    (replay freshLimiter [mkCall "k" 1 1000 1 0 0; mkCall "k" 1 1000 1 999 0]).1
    = [true; false] /\
  map (fun e => isAllowed e.2)
    (replay freshLimiter [mkCall "k" 1 1000 1 0 0; mkCall "k" 1 1000 1 1000 0]).1
    = [true; true].
Proof. vm_compute. split; reflexivity. Qed.

(** * Further properties of the rate limiter *)

(** ** Shape of the answers *)

Lemma Math_ceil_div_covers x d : 0 < d -> x <= Math_ceil_div x d * d.
Proof.
  intros Hd. unfold Math_ceil_div.
  pose proof (Z.mul_div_le (- x) d Hd). nia.
Qed.

(** X1: A call whose weight does not exceed the limit always returns a
    Decision, on either store and whatever the state. *)
Theorem checkRateLimit_returns_within_limit l key maxRequests windowMs weight' now rnd :
  weight' <= maxRequests ->
  exists d l',
    checkRateLimit l key maxRequests windowMs weight' now rnd = (Returned d, l').
Proof.
  intros Hle.
  destruct (checkRateLimit l key maxRequests windowMs weight' now rnd)
    as [[d|e] l'] eqn:E; [eauto|].
  apply thrown_call_changes_nothing in E. lia.
Qed.

Lemma checkRateLimit_returns_within_limit_witness :
  exists d l', checkRateLimit freshLimiter "ip:10.0.0.1" 100 60000 1 5 0 = (Returned d, l').
Proof. apply checkRateLimit_returns_within_limit. lia. Defined.

(** X2: the fields of every Decision fit together: an allowed one has no
    retryAfter, resets a window after the call and, for a limit that is
    not negative, a remaining budget that is not negative; a denied one
    has no budget left and resets retryAfter seconds after the call. *)
Theorem decision_fields_agree l key maxRequests windowMs weight' now rnd d l' :
  checkRateLimit l key maxRequests windowMs weight' now rnd = (Returned d, l') ->
  if allowed d
  then retryAfter d = None /\ resetTime d = now + windowMs /\
       (0 <= maxRequests -> 0 <= remaining d)
  else remaining d = 0 /\
       exists r, retryAfter d = Some r /\ resetTime d = now + r * 1000.
Proof.
  intros Hcall.
  destruct (redisClient l) as [c|] eqn:Hc.
  - rewrite checkRateLimit_redis with (c := c) in Hcall by exact Hc.
    cbv zeta in Hcall. injection Hcall as Hr _.
    pose proof (checkRateLimitRedis_spec key maxRequests windowMs weight' now rnd c) as H.
    cbv zeta in H. rewrite Hr in H.
    destruct (healthy 4 (faults c)); [destruct (maxRequests <? _) eqn:E|];
      destruct H as [[= H] _]; subst d; simpl.
    + split; [reflexivity|]. eexists. split; reflexivity.
    + repeat split; lia.
    + repeat split; lia.
  - rewrite checkRateLimit_memory in Hcall by exact Hc.
    cbv zeta in Hcall. injection Hcall as Hr _.
    destruct (checkRateLimitMemory_cases (inMemoryStore l) key
                maxRequests windowMs weight' now)
      as [(_ & _ & E) | [(_ & o & rest & Hp & E) | (Hle & E)]];
      rewrite E in Hr; simpl in Hr; try discriminate Hr;
      injection Hr as <-; simpl.
    + split; [reflexivity|]. eexists. split; reflexivity.
    + repeat split; lia.
Qed.

Lemma decision_fields_agree_witness :
  @None Z = None /\ 60005 = 5 + 60000 /\ (0 <= 100 -> 0 <= 99).
Proof.
  exact (decision_fields_agree freshLimiter "ip:10.0.0.1" 100 60000 1 5 0
           {| allowed := true; remaining := 99; resetTime := 60005; retryAfter := None |}
           _ eq_refl).
Defined.

(** ** Status right after a check *)

(** X3: right after an allowed call on the in-memory store the status of the
    key is exact: the reported usage is the limit less the remaining
    budget of the Decision. *)
Theorem status_after_allowed_call l key maxRequests windowMs weight' now rnd d l' later :
  redisClient l = None ->
  checkRateLimit l key maxRequests windowMs weight' now rnd = (Returned d, l') ->
  allowed d = true ->
  (getRateLimitStatus l' key later).1
  = Returned {| currentUsage := maxRequests - remaining d; statusTimestamp := later |}.
Proof.
  intros Hc Hcall Hd.
  rewrite checkRateLimit_memory in Hcall by exact Hc.
  cbv zeta in Hcall. injection Hcall as Hr <-.
  destruct (checkRateLimitMemory (inMemoryStore l) key maxRequests windowMs weight' now)
    as [r st'] eqn:E. simpl in Hr. subst r.
  apply checkRateLimitMemory_allowed in E; [|exact Hd].
  destruct E as (_ & -> & ->).
  unfold getRateLimitStatus. simpl. rewrite lookup_insert_eq. simpl.
  rewrite sumWeights_app, sumWeights_cons, sumWeights_nil. simpl.
  do 2 f_equal. lia.
Qed.

Lemma status_after_allowed_call_witness :
  (getRateLimitStatus (checkRateLimit freshLimiter "k" 10 60000 3 5 0).2 "k" 7).1
  = Returned {| currentUsage := 10 - 7; statusTimestamp := 7 |}.
Proof.
  exact (status_after_allowed_call freshLimiter "k" 10 60000 3 5 0
           {| allowed := true; remaining := 7; resetTime := 60005; retryAfter := None |}
           _ 7 eq_refl eq_refl eq_refl).
Defined.

(** ** The retry hint *)

Lemma pruneRequests_sum_le tau l :
  Forall (fun r => 0 <= weight r) l ->
  sumWeights (pruneRequests tau l) <= sumWeights l.
Proof.
  unfold pruneRequests. induction 1 as [|r l Hr _ IH]; simpl; [lia|].
  destruct (tau <? timestamp r); rewrite !sumWeights_cons; lia.
Qed.

(** X4: the hint of a denial on the in-memory store is sound.  When the live
    events fit the limit and none of them is lighter than the request, the
    same request made again at the resetTime of the denial is allowed. *)
Theorem retry_at_resetTime_is_allowed l key maxRequests windowMs weight' now rnd rnd' d l' :
  redisClient l = None ->
  checkRateLimit l key maxRequests windowMs weight' now rnd = (Returned d, l') ->
  allowed d = false ->
  sumWeights (pruneRequests (now - windowMs) (requestsOf (inMemoryStore l) key))
    <= maxRequests ->
  Forall (fun r => 0 <= weight r /\ weight' <= weight r)
    (pruneRequests (now - windowMs) (requestsOf (inMemoryStore l) key)) ->
  exists d' l'',
    checkRateLimit l' key maxRequests windowMs weight' (resetTime d) rnd'
      = (Returned d', l'')
    /\ allowed d' = true.
Proof.
  intros Hc Hcall Hd Hfit Hw.
  rewrite checkRateLimit_memory in Hcall by exact Hc.
  cbv zeta in Hcall. injection Hcall as Hr <-.
  destruct (checkRateLimitMemory (inMemoryStore l) key maxRequests windowMs weight' now)
    as [r st'] eqn:E. simpl in Hr. subst r.
  apply checkRateLimitMemory_denied in E; [|exact Hd].
  destruct E as (_ & -> & o & rest & Hp & ->).
  rewrite Hp in Hfit, Hw. simpl resetTime.
  set (R := now + Math_ceil_div (windowMs - (now - timestamp o)) 1000 * 1000).
  assert (timestamp o <= R - windowMs) as Hgone.
  { pose proof (Math_ceil_div_covers (windowMs - (now - timestamp o)) 1000 ltac:(lia)).
    unfold R. lia. }
  erewrite checkRateLimit_memory by reflexivity. cbv zeta. simpl inMemoryStore.
  inversion Hw as [|? ? [Ho1 Ho2] Hrest]; subst.
  assert (sumWeights (pruneRequests (R - windowMs)
            (requestsOf (<[key := pruneRequests (now - windowMs)
                                     (requestsOf (inMemoryStore l) key)]>
                           (inMemoryStore l)) key)) + weight' <= maxRequests) as Hok.
  { rewrite requestsOf_insert_eq, Hp.
    unfold pruneRequests at 1. simpl.
    destruct (R - windowMs <? timestamp o) eqn:Eo; [apply Z.ltb_lt in Eo; lia|].
    fold (pruneRequests (R - windowMs) rest).
    assert (sumWeights (pruneRequests (R - windowMs) rest) <= sumWeights rest).
    { apply pruneRequests_sum_le. rewrite List.Forall_forall in *.
      intros x Hx. apply Hrest, Hx. }
    rewrite sumWeights_cons in Hfit. lia. }
  destruct (checkRateLimitMemory_cases
              (<[key := pruneRequests (now - windowMs) (requestsOf (inMemoryStore l) key)]>
                 (inMemoryStore l))
              key maxRequests windowMs weight' R)
    as [(Hlt & _ & _) | [(Hlt & _) | (_ & ->)]]; try lia.
  eexists; eexists; split; reflexivity.
Qed.

Lemma retry_at_resetTime_is_allowed_witness :
  let l := {| redisClient := None; initialized := true;
              inMemoryStore := {[ "k" := [ {| timestamp := 100; weight := 1 |};
                                           {| timestamp := 900; weight := 1 |} ] ]} |} in
  exists d' l'',
    checkRateLimit (checkRateLimit l "k" 2 1000 1 1000 0).2 "k" 2 1000 1 2000 0
      = (Returned d', l'')
    /\ allowed d' = true.
Proof.
  intros l.
  assert (requestsOf (inMemoryStore l) "k"
          = [ {| timestamp := 100; weight := 1 |}; {| timestamp := 900; weight := 1 |} ])
    as Hk by reflexivity.
  refine (retry_at_resetTime_is_allowed l "k" 2 1000 1 1000 0 0
            {| allowed := false; remaining := 0; resetTime := 2000; retryAfter := Some 1 |}
            _ eq_refl eq_refl eq_refl _ _).
  - rewrite Hk. vm_compute. discriminate.
  - rewrite Hk. repeat constructor; simpl; lia.
Defined.

(** ** Reset *)

(** X5: on the in-memory store a reset never fails, empties the key, leaves
    every other key as it was, and a second reset changes nothing more. *)
Theorem resetRateLimit_memory l key :
  redisClient l = None ->
  let out := resetRateLimit l key in
  out.1 = Returned tt /\
  requestsOf (inMemoryStore out.2) key = [] /\
  (forall key', key' <> key -> inMemoryStore out.2 !! key' = inMemoryStore l !! key') /\
  resetRateLimit out.2 key = out.
Proof.
  intros Hc. unfold resetRateLimit. rewrite Hc. simpl.
  split; [reflexivity|]. split.
  - unfold requestsOf. rewrite lookup_delete_eq. reflexivity.
  - split.
    + intros key' Hne. apply lookup_delete_ne. congruence.
    + rewrite delete_delete_eq. reflexivity.
Qed.

Lemma resetRateLimit_memory_witness :
  let out := resetRateLimit (checkRateLimit freshLimiter "k" 1 60000 1 5 0).2 "k" in
  out.1 = Returned tt /\
  requestsOf (inMemoryStore out.2) "k" = [] /\
  (forall key', key' <> "k" ->
     inMemoryStore out.2 !! key'
     = inMemoryStore (checkRateLimit freshLimiter "k" 1 60000 1 5 0).2 !! key') /\
  resetRateLimit out.2 "k" = out.
Proof.
  apply (resetRateLimit_memory (checkRateLimit freshLimiter "k" 1 60000 1 5 0).2 "k").
  reflexivity.
Defined.

(** X6: A reset gives the key its whole budget back: the next call whose
    weight fits the limit is allowed, with nothing counted against it. *)
Theorem reset_restores_budget l key maxRequests windowMs weight' now rnd :
  redisClient l = None ->
  weight' <= maxRequests ->
  (checkRateLimit (resetRateLimit l key).2 key maxRequests windowMs weight' now rnd).1
  = Returned {| allowed := true;
                remaining := maxRequests - weight';
                resetTime := now + windowMs;
                retryAfter := None |}.
Proof.
  intros Hc Hle. unfold resetRateLimit. rewrite Hc. simpl.
  erewrite checkRateLimit_memory by reflexivity. cbv zeta. simpl.
  destruct (checkRateLimitMemory_cases (delete key (inMemoryStore l)) key
              maxRequests windowMs weight' now)
    as [(Hlt & _ & _) | [(Hlt & _) | (_ & ->)]];
    unfold requestsOf in *; rewrite lookup_delete_eq in *; simpl in *;
    rewrite ?sumWeights_nil in *; try lia.
  unfold allowedDecision. repeat f_equal; lia.
Qed.

Lemma reset_restores_budget_witness :
  (checkRateLimit
     (resetRateLimit (checkRateLimit freshLimiter "k" 1 60000 1 5 0).2 "k").2
     "k" 1 60000 1 6 0).1
  = Returned {| allowed := true; remaining := 1 - 1;
                resetTime := 6 + 60000; retryAfter := None |}.
Proof.
  apply (reset_restores_budget (checkRateLimit freshLimiter "k" 1 60000 1 5 0).2);
    [reflexivity | lia].
Defined.

(** X7: on the Redis path a reset does not fail open.  When the command fails
    the error reaches the caller and the sorted set of the key is kept;
    when it succeeds the sorted set and its time-to-live are gone.  The
    in-memory store is not touched either way. *)
Theorem resetRateLimit_redis l c key :
  redisClient l = Some c ->
  let out := resetRateLimit l key in
  inMemoryStore out.2 = inMemoryStore l /\
  exists c', redisClient out.2 = Some c' /\
    if faulty c
    then out.1 = Threw RedisError /\ zsets c' = zsets c /\ expiry c' = expiry c
    else out.1 = Returned tt /\
         zset_of c' (redisKeyOf key) = [] /\
         expiry c' !! redisKeyOf key = None /\
         forall k', k' <> redisKeyOf key -> zset_of c' k' = zset_of c k'.
Proof.
  intros Hc. unfold resetRateLimit. rewrite Hc.
  unfold del, command. destruct (faulty c); simpl.
  - split; [reflexivity|]. eexists. repeat split.
  - split; [reflexivity|]. eexists. split; [reflexivity|].
    unfold zset_of. simpl. rewrite !lookup_delete_eq.
    repeat split; try reflexivity.
    intros k' Hne. rewrite lookup_delete_ne by congruence. reflexivity.
Qed.

Lemma resetRateLimit_redis_witness :
  let c := {| zsets := {[ redisKeyOf "k" :=
                            [ {| score := 5; member := {| stamp := 5; salt := 0 |} |} ] ]};
              expiry := ∅;
              faults := [true] |} in
  let l := {| redisClient := Some c; initialized := true; inMemoryStore := ∅ |} in
  let out := resetRateLimit l "k" in
  inMemoryStore out.2 = inMemoryStore l /\
  exists c', redisClient out.2 = Some c' /\
    out.1 = Threw RedisError /\ zsets c' = zsets c /\ expiry c' = expiry c.
Proof.
  intros c l.
  exact (resetRateLimit_redis l c "k" eq_refl).
Defined.

(** ** Initialisation and shutdown *)

(** X8: initialisation happens once: a second call changes nothing, whatever
    the environment and the connection have become, and so does not retry
    a connection that failed. *)
Theorem initializeRateLimiter_once url1 conn1 url2 conn2 l :
  initializeRateLimiter url2 conn2 (initializeRateLimiter url1 conn1 l)
  = initializeRateLimiter url1 conn1 l.
Proof.
  unfold initializeRateLimiter.
  destruct (initialized l) eqn:Hi; [rewrite Hi; reflexivity|].
  destruct (isSet url1); reflexivity.
Qed.

(** X9: A shutdown that returns leaves the module as freshly loaded.  One
    that fails, which takes a client whose [quit] throws, clears nothing:
    the module stays initialised, keeps its client and its in-memory
    store. *)
Theorem closeRateLimiter_outcomes l :
  let out := closeRateLimiter l in
  match out.1 with
  | Returned _ => out.2 = freshLimiter
  | Threw e =>
      e = RedisError /\
      (exists c c', redisClient l = Some c /\ faulty c = true /\
                    redisClient out.2 = Some c') /\
      initialized out.2 = initialized l /\
      inMemoryStore out.2 = inMemoryStore l
  end.
Proof.
  unfold closeRateLimiter. destruct (redisClient l) as [c|] eqn:Hc; [|reflexivity].
  unfold quit, command. destruct (faulty c) eqn:Hf; simpl; [|reflexivity].
  repeat split; eauto.
Qed.

(** ** Keys do not interfere *)

Lemma redisKeyOf_inj key key' : redisKeyOf key = redisKeyOf key' -> key = key'.
Proof. unfold redisKeyOf. simpl. intros [= H]. exact H. Qed.

(** X10: A check on one key leaves the events of every other key as they were,
    in the in-memory store and in Redis, whether the call is allowed,
    denied, fails open or throws. *)
Theorem checkRateLimit_key_isolation l key key' maxRequests windowMs weight' now rnd :
  key' <> key ->
  let l' := (checkRateLimit l key maxRequests windowMs weight' now rnd).2 in
  requestsOf (inMemoryStore l') key' = requestsOf (inMemoryStore l) key' /\
  match redisClient l with
  | Some c =>
      exists c', redisClient l' = Some c' /\
                 zset_of c' (redisKeyOf key') = zset_of c (redisKeyOf key')
  | None => redisClient l' = None
  end.
Proof.
  intros Hne l'. subst l'.
  destruct (redisClient l) as [c|] eqn:Hc.
  - rewrite checkRateLimit_redis with (c := c) by exact Hc. cbv zeta. simpl.
    split; [reflexivity|]. eexists. split; [reflexivity|].
    assert (redisKeyOf key <> redisKeyOf key') as Hk
      by (intros H; apply redisKeyOf_inj in H; congruence).
    pose proof (checkRateLimitRedis_spec key maxRequests windowMs weight' now rnd c) as S.
    cbv zeta in S. unfold zset_of at 1.
    destruct (healthy 4 (faults c)); [destruct (maxRequests <? _)|].
    + destruct S as [_ ->]. rewrite lookup_insert_ne by exact Hk. reflexivity.
    + destruct S as [_ ->]. rewrite lookup_insert_ne by exact Hk. reflexivity.
    + destruct S as [_ [-> | ->]];
        rewrite ?lookup_insert_ne by exact Hk; reflexivity.
  - rewrite checkRateLimit_memory by exact Hc. cbv zeta. simpl.
    split; [|reflexivity]. apply checkRateLimitMemory_frame. exact Hne.
Qed.

Lemma checkRateLimit_key_isolation_witness :
  let l := (checkRateLimit freshLimiter "uid:a" 1 60000 1 5 0).2 in
  let l' := (checkRateLimit l "ip:b" 1 60000 1 6 0).2 in
  requestsOf (inMemoryStore l') "uid:a" = requestsOf (inMemoryStore l) "uid:a" /\
  redisClient l' = None.
Proof.
  intros l.
  apply (checkRateLimit_key_isolation l "ip:b" "uid:a" 1 60000 1 6 0).
  discriminate.
Defined.

(** ** What the Redis path records *)

(** X11: on the Redis path a check adds nothing to the sorted set.  The
    object given to [zAdd] has no [value], so the call that passes the
    admission test ends in the catch block.  Every allowed Decision is the
    fail-open one, with the whole limit as remaining budget whatever the
    count and the weight, and the sorted set of the key afterwards is the
    one before the call or what pruning left of it. *)
Theorem redis_call_records_nothing l c key maxRequests windowMs weight' now rnd :
  redisClient l = Some c ->
  let out := checkRateLimit l key maxRequests windowMs weight' now rnd in
  let before := zset_of c (redisKeyOf key) in
  (forall d, out.1 = Returned d -> allowed d = true ->
             d = failOpen maxRequests windowMs now) /\
  exists c', redisClient out.2 = Some c' /\
    (zset_of c' (redisKeyOf key) = before \/
     zset_of c' (redisKeyOf key) = pruneEntries (now - windowMs) before).
Proof.
  intros Hc out before. subst out before.
  rewrite checkRateLimit_redis with (c := c) by exact Hc. cbv zeta. simpl.
  split; [intros d; apply checkRateLimitRedis_allowed|].
  eexists. split; [reflexivity|].
  pose proof (checkRateLimitRedis_spec key maxRequests windowMs weight' now rnd c) as S.
  cbv zeta in S. unfold zset_of at 1 3.
  destruct (healthy 4 (faults c)); [destruct (maxRequests <? _)|].
  - destruct S as [_ ->]. rewrite lookup_insert_eq. right. reflexivity.
  - destruct S as [_ ->]. rewrite lookup_insert_eq. right. reflexivity.
  - destruct S as [_ [-> | ->]]; rewrite ?lookup_insert_eq; [left | right]; reflexivity.
Qed.

Lemma redis_call_records_nothing_witness :
  let c := {| zsets := ∅; expiry := ∅; faults := [] |} in
  let l := {| redisClient := Some c; initialized := true; inMemoryStore := ∅ |} in
  let out := checkRateLimit l "k" 10 60000 3 5 0 in
  let before := zset_of c (redisKeyOf "k") in
  (forall d, out.1 = Returned d -> allowed d = true -> d = failOpen 10 60000 5) /\
  exists c', redisClient out.2 = Some c' /\
    (zset_of c' (redisKeyOf "k") = before \/
     zset_of c' (redisKeyOf "k") = pruneEntries (5 - 60000) before).
Proof.
  intros c l.
  exact (redis_call_records_nothing l c "k" 10 60000 3 5 0 eq_refl).
Defined.

(** ** The window bound with weights *)

Lemma sumZ_app l1 l2 : sumZ (l1 ++ l2) = sumZ l1 + sumZ l2.
Proof. unfold sumZ. induction l1 as [|x l1 IH]; simpl; [reflexivity|]. rewrite IH. lia. Qed.

Lemma allowedWeightWithin_snoc k lo hi log e :
  allowedWeightWithin k lo hi (log ++ [e]) =
    allowedWeightWithin k lo hi log +
    if allowedOn k e && (lo <=? callNow e.1) && (callNow e.1 <? hi)
    then callWeight e.1 else 0.
Proof.
  unfold allowedWeightWithin. rewrite List.filter_app, map_app, sumZ_app. simpl.
  destruct (allowedOn k e && _ && _); simpl; lia.
Qed.

Lemma allowedWeightAfter_snoc k tau log e :
  allowedWeightAfter k tau (log ++ [e]) =
    allowedWeightAfter k tau log +
    if allowedOn k e && (tau <? callNow e.1) then callWeight e.1 else 0.
Proof.
  unfold allowedWeightAfter. rewrite List.filter_app, map_app, sumZ_app. simpl.
  destruct (allowedOn k e && _); simpl; lia.
Qed.

Lemma allowedWeightWithin_le_after k lo hi tau log :
  tau < lo ->
  Forall (fun e => allowedOn k e = true -> 0 <= callWeight e.1) log ->
  allowedWeightWithin k lo hi log <= allowedWeightAfter k tau log.
Proof.
  intros Hlt. unfold allowedWeightWithin, allowedWeightAfter.
  induction 1 as [|e log He _ IH]; simpl; [lia|].
  destruct (allowedOn k e) eqn:Ea; simpl; [|exact IH].
  specialize (He eq_refl).
  destruct (lo <=? callNow e.1) eqn:Elo; simpl.
  - apply Z.leb_le in Elo.
    assert ((tau <? callNow e.1) = true) as -> by (apply Z.ltb_lt; lia).
    destruct (callNow e.1 <? hi); simpl; lia.
  - destruct (tau <? callNow e.1); simpl; lia.
Qed.

Section WeightedWindowBound.
Variables (k : string) (M W : Z).

Lemma performMemory_accountedWeights t hist st c :
  accountedWeights k W t hist st ->
  t <= callNow c ->
  usesWindow k M W c ->
  accountedWeights k W (callNow c) (hist ++ [(c, (performMemory st c).1)])
    (performMemory st c).2 /\
  (allowedOn k (c, (performMemory st c).1) = true ->
   allowedWeightAfter k (callNow c - W) hist + callWeight c <= M).
Proof.
  intros [Hpos Hacc] Hle Hp. unfold performMemory, accountedWeights.
  destruct (decide (callKey c = k)) as [Hk | Hk].
  - destruct (Hp Hk) as (-> & -> & Hw). rewrite Hk.
    set (now := callNow c) in *. set (w := callWeight c) in *.
    destruct (checkRateLimitMemory_cases st k M W w now)
      as [(_ & _ & E) | [(_ & o & rest & _ & E) | (Hadm & E)]]; rewrite E; simpl.
    + split; [|unfold allowedOn; simpl; rewrite andb_false_r; discriminate].
      split.
      * apply Forall_app. split; [exact Hpos|].
        constructor; [|constructor]. unfold allowedOn. simpl.
        rewrite andb_false_r. discriminate.
      * intros tau Htau. rewrite allowedWeightAfter_snoc. unfold allowedOn. simpl.
        rewrite andb_false_r. simpl. rewrite Z.add_0_r. apply Hacc. lia.
    + split; [|unfold allowedOn; simpl; rewrite andb_false_r; discriminate].
      rewrite !requestsOf_insert_eq. split.
      * apply Forall_app. split; [exact Hpos|].
        constructor; [|constructor]. unfold allowedOn. simpl.
        rewrite andb_false_r. discriminate.
      * intros tau Htau. rewrite allowedWeightAfter_snoc. unfold allowedOn. simpl.
        rewrite andb_false_r. simpl. rewrite Z.add_0_r.
        rewrite pruneRequests_twice by lia. apply Hacc. lia.
    + split.
      * rewrite !requestsOf_insert_eq. split.
        { apply Forall_app. split; [exact Hpos|].
          constructor; [|constructor]. intros _. exact Hw. }
        intros tau Htau. rewrite allowedWeightAfter_snoc. unfold allowedOn. simpl.
        rewrite bool_decide_eq_true_2 by exact Hk. simpl.
        rewrite pruneRequests_app, sumWeights_app, pruneRequests_single.
        rewrite pruneRequests_twice by lia.
        rewrite (Hacc tau) by lia. fold now. fold w.
        destruct (tau <? now); [rewrite sumWeights_cons|]; rewrite sumWeights_nil;
          simpl; lia.
      * intros _. rewrite (Hacc (now - W)) by lia. exact Hadm.
  - rewrite checkRateLimitMemory_frame by congruence.
    assert (allowedOn k (c, (checkRateLimitMemory st (callKey c) (callMax c)
              (callWindow c) (callWeight c) (callNow c)).1) = false) as Hno.
    { unfold allowedOn. simpl. rewrite bool_decide_eq_false_2 by exact Hk. reflexivity. }
    split; [|rewrite Hno; discriminate].
    split.
    + apply Forall_app. split; [exact Hpos|].
      constructor; [|constructor]. rewrite Hno. discriminate.
    + intros tau Htau.
      rewrite allowedWeightAfter_snoc, Hno. simpl. rewrite Z.add_0_r. apply Hacc. lia.
Qed.

Lemma replayMemory_weighted_bound cs : forall t hist st,
  clockFrom t cs = true ->
  Forall (usesWindow k M W) cs ->
  accountedWeights k W t hist st ->
  (forall s, allowedWeightWithin k s (s + W) hist <= M) ->
  forall s, allowedWeightWithin k s (s + W) (hist ++ (replayMemory st cs).1) <= M.
Proof.
  induction cs as [|c cs IH]; intros t hist st Hclock Hps Hacc Hbound s; simpl.
  - rewrite app_nil_r. apply Hbound.
  - simpl in Hclock. apply andb_prop in Hclock. destruct Hclock as [H1 H2].
    apply Z.leb_le in H1.
    inversion Hps as [|? ? Hp Hps']; subst.
    destruct (performMemory_accountedWeights t hist st c Hacc H1 Hp) as [Hacc' Hadm].
    destruct Hacc as [Hpos _].
    destruct (performMemory st c) as [r st'] eqn:E. simpl in Hacc', Hadm.
    specialize (IH (callNow c) (hist ++ [(c, r)]) st' H2 Hps' Hacc').
    destruct (replayMemory st' cs) as [log st'']. simpl in *.
    replace (hist ++ (c, r) :: log) with ((hist ++ [(c, r)]) ++ log)
      by (rewrite <- app_assoc; reflexivity).
    apply IH. intros s'.
    rewrite allowedWeightWithin_snoc. simpl.
    destruct (allowedOn k (c, r)) eqn:Ea; simpl; [|rewrite Z.add_0_r; apply Hbound].
    destruct (s' <=? callNow c) eqn:Elo; simpl; [|rewrite Z.add_0_r; apply Hbound].
    destruct (callNow c <? s' + W) eqn:Ehi; simpl; [|rewrite Z.add_0_r; apply Hbound].
    apply Z.leb_le in Elo. apply Z.ltb_lt in Ehi.
    specialize (Hadm eq_refl).
    pose proof (allowedWeightWithin_le_after k s' (s' + W) (callNow c - W) hist
                  ltac:(lia) Hpos) as Hle.
    lia.
Qed.
End WeightedWindowBound.

(** X12: the window bound holds for weights: on the in-memory store, for every
    run whose clock does not run backwards and in which the calls on the
    key use one limit M >= 0, one window W and weights that are not
    negative, the weights of the calls allowed at times t with
    s <= t < s + W sum to at most M, for every s. *)
Theorem weighted_window_bound l k M W cs :
  redisClient l = None ->
  requestsOf (inMemoryStore l) k = [] ->
  0 <= M ->
  monotoneClock cs = true ->
  Forall (usesWindow k M W) cs ->
  forall s, allowedWeightWithin k s (s + W) (replay l cs).1 <= M.
Proof.
  intros Hc Hempty HM Hclock Hps s.
  rewrite replay_memory by exact Hc. simpl.
  apply (replayMemory_weighted_bound k M W cs _ [] (inMemoryStore l)
           (monotoneClock_clockFrom cs Hclock) Hps).
  - split; [constructor|]. intros tau _. rewrite Hempty. reflexivity.
  - intros s'. exact HM.
Qed.

Lemma weighted_window_bound_witness :
  let cs := [mkCall "k" 5 1000 2 100 0; mkCall "other" 1 50 3 200 0;
             mkCall "k" 5 1000 3 400 0; mkCall "k" 5 1000 1 700 0;
             mkCall "k" 5 1000 0 800 0; mkCall "k" 5 1000 2 1100 0] in
  allowedWeightWithin "k" 100 (100 + 1000) (replay freshLimiter cs).1 <= 5.
Proof.
  intros cs.
  refine (weighted_window_bound freshLimiter "k" 5 1000 cs _ _ _ _ _ 100).
  - reflexivity.
  - reflexivity.
  - lia.
  - reflexivity.
  - unfold cs, usesWindow.
    repeat constructor; simpl; intros; try discriminate; auto; lia.
Defined.

(** ** Below the limit nothing is denied *)

Lemma callsOn_cons k c cs :
  callsOn k (c :: cs) =
    ((if bool_decide (callKey c = k) then 1 else 0) + callsOn k cs)%nat.
Proof. unfold callsOn. simpl. destruct (bool_decide (callKey c = k)); reflexivity. Qed.

Lemma replayMemory_no_denial k M cs : forall st n,
  Forall (unitCall k M) cs ->
  Forall (fun r => weight r = 1) (requestsOf st k) ->
  (length (requestsOf st k) <= n)%nat ->
  Z.of_nat (n + callsOn k cs) <= M ->
  Forall (fun e => callKey e.1 = k -> isAllowed e.2 = true) (replayMemory st cs).1.
Proof.
  induction cs as [|c cs IH]; intros st n Hps Hw Hlen Hn; simpl; [constructor|].
  inversion Hps as [|? ? Hp Hps']; subst.
  rewrite callsOn_cons in Hn. unfold performMemory.
  destruct (decide (callKey c = k)) as [Hk | Hk].
  - rewrite bool_decide_eq_true_2 in Hn by exact Hk.
    destruct (Hp Hk) as (-> & ->). rewrite Hk.
    pose proof (List.filter_length_le (fun req => callNow c - callWindow c <? timestamp req)
                  (requestsOf st k)) as Hf.
    fold (pruneRequests (callNow c - callWindow c) (requestsOf st k)) in Hf.
    destruct (checkRateLimitMemory_cases st k M (callWindow c) 1 (callNow c))
      as [(Hlt & _ & _) | [(Hlt & _) | (_ & E)]];
      try (rewrite sumWeights_unit in Hlt by (apply pruneRequests_Forall, Hw); lia).
    rewrite E.
    specialize (IH (<[k := pruneRequests (callNow c - callWindow c) (requestsOf st k)
                            ++ [{| timestamp := callNow c; weight := 1 |}]]> st) (S n) Hps').
    rewrite requestsOf_insert_eq in IH.
    destruct (replayMemory _ cs) as [log st'']. simpl.
    constructor; [intros _; reflexivity|].
    apply IH.
    + apply Forall_app. split; [apply pruneRequests_Forall, Hw|].
      constructor; [reflexivity | constructor].
    + rewrite length_app. simpl. lia.
    + lia.
  - rewrite bool_decide_eq_false_2 in Hn by exact Hk.
    pose proof (checkRateLimitMemory_frame st (callKey c) (callMax c) (callWindow c)
                  (callWeight c) (callNow c) k ltac:(congruence)) as Hfr.
    destruct (checkRateLimitMemory st (callKey c) (callMax c) (callWindow c)
                (callWeight c) (callNow c)) as [r st'].
    simpl in Hfr.
    specialize (IH st' n Hps').
    rewrite Hfr in IH.
    destruct (replayMemory st' cs) as [log st'']. simpl.
    constructor; [intros Hk'; simpl in Hk'; contradiction|].
    apply IH; [exact Hw | exact Hlen | lia].
Qed.

(** X13: the limiter does not deny below the limit: on the in-memory store, a
    key that starts without events and receives at most M calls of weight
    1 has every one of them allowed, whatever the windows, the clock and
    the calls made on other keys in between. *)
Theorem no_denial_below_limit l k M cs :
  redisClient l = None ->
  requestsOf (inMemoryStore l) k = [] ->
  Forall (unitCall k M) cs ->
  Z.of_nat (callsOn k cs) <= M ->
  Forall (fun e => callKey e.1 = k -> isAllowed e.2 = true) (replay l cs).1.
Proof.
  intros Hc Hempty Hps Hn. rewrite replay_memory by exact Hc. simpl.
  apply (replayMemory_no_denial k M cs (inMemoryStore l) 0 Hps).
  - rewrite Hempty. constructor.
  - rewrite Hempty. simpl. lia.
  - simpl. exact Hn.
Qed.

Lemma no_denial_below_limit_witness :
  let cs := [mkCall "k" 3 1000 1 100 0; mkCall "other" 1 50 3 200 0;
             mkCall "k" 3 10 1 50 0; mkCall "k" 3 1000 1 700 0] in
  Forall (fun e => callKey e.1 = "k" -> isAllowed e.2 = true) (replay freshLimiter cs).1.
Proof.
  intros cs.
  apply (no_denial_below_limit freshLimiter "k" 3 cs).
  - reflexivity.
  - reflexivity.
  - unfold cs, unitCall.
    repeat constructor; simpl; intros; try discriminate; auto.
  - vm_compute. discriminate.
Defined.

(** ** Within one window the limiter is a counter *)

Lemma pruneRequests_all_live ws l :
  Forall (fun r => ws < timestamp r) l -> pruneRequests ws l = l.
Proof.
  unfold pruneRequests. induction 1 as [|r l Hr _ IH]; simpl; [reflexivity|].
  assert ((ws <? timestamp r) = true) as -> by (apply Z.ltb_lt; exact Hr).
  rewrite IH. reflexivity.
Qed.

Lemma replayMemory_counter k M W first cs : forall st i,
  0 < M ->
  Forall (fun c => callKey c = k /\ callMax c = M /\ callWindow c = W /\
                   callWeight c = 1 /\ first <= callNow c < first + W) cs ->
  match cs with c :: _ => i = 0%nat -> callNow c = first | [] => True end ->
  Forall (fun r => weight r = 1 /\ first <= timestamp r) (requestsOf st k) ->
  Z.of_nat (length (requestsOf st k)) = Z.min (Z.of_nat i) M ->
  (i <> 0%nat ->
   exists rest, requestsOf st k = {| timestamp := first; weight := 1 |} :: rest) ->
  map snd (replayMemory st cs).1 = counterAnswers M W first i cs.
Proof.
  induction cs as [|c cs IH]; intros st i HM Hps Hfirst Hev Hlen Hhead; simpl;
    [reflexivity|].
  inversion Hps as [|? ? (Hk & Hmax & Hwin & Hwt & Hlo & Hhi) Hps']; subst.
  unfold performMemory. rewrite Hwt.
  assert (pruneRequests (callNow c - callWindow c) (requestsOf st (callKey c))
          = requestsOf st (callKey c)) as Hlive.
  { apply pruneRequests_all_live. rewrite List.Forall_forall in *.
    intros r Hr. destruct (Hev r Hr) as [_ Hr']. lia. }
  assert (sumWeights (requestsOf st (callKey c))
          = Z.of_nat (length (requestsOf st (callKey c)))) as Hsum.
  { apply sumWeights_unit. rewrite List.Forall_forall in *.
    intros r Hr. apply (Hev r Hr). }
  unfold counterAnswer.
  destruct (checkRateLimitMemory_cases st (callKey c) (callMax c) (callWindow c) 1
              (callNow c))
    as [(Hlt & Hnil & _) | [(Hlt & o & rest & Hp & E) | (Hle & E)]];
    rewrite Hlive in *; rewrite Hsum in *.
  - rewrite Hnil in Hlt. simpl in Hlt. lia.
  - (* the window is full *)
    assert (callMax c <= Z.of_nat i) as Hfull by lia.
    assert ((Z.of_nat i <? callMax c) = false) as -> by (apply Z.ltb_ge; lia).
    destruct (Hhead ltac:(lia)) as [rest' Hr']. rewrite Hr' in Hp.
    injection Hp as <- <-.
    rewrite E.
    specialize (IH (<[callKey c := requestsOf st (callKey c)]> st) (S i) HM Hps').
    rewrite requestsOf_insert_eq in IH.
    destruct (replayMemory _ cs) as [log st'']. simpl. f_equal.
    apply IH.
    + destruct cs; [exact I | intros; lia].
    + exact Hev.
    + lia.
    + intros _. eauto.
  - (* the call is counted *)
    assert (Z.of_nat i < callMax c) as Hroom by lia.
    assert ((Z.of_nat i <? callMax c) = true) as -> by (apply Z.ltb_lt; lia).
    assert (Z.of_nat (length (requestsOf st (callKey c))) = Z.of_nat i) as Hi by lia.
    rewrite E, Hi.
    specialize (IH (<[callKey c := requestsOf st (callKey c)
                                     ++ [{| timestamp := callNow c; weight := 1 |}]]> st)
                  (S i) HM Hps').
    rewrite requestsOf_insert_eq in IH.
    destruct (replayMemory _ cs) as [log st'']. simpl. f_equal.
    apply IH.
    + destruct cs; [exact I | intros; lia].
    + apply Forall_app. split; [exact Hev|].
      constructor; [simpl; split; [reflexivity | lia] | constructor].
    + rewrite length_app. simpl. lia.
    + intros _. destruct i as [|i'].
      * specialize (Hfirst eq_refl).
        destruct (requestsOf st (callKey c)) as [|r rs]; [|simpl in Hi; lia].
        simpl. rewrite Hfirst. eauto.
      * destruct (Hhead ltac:(lia)) as [rest' ->]. simpl. eauto.
Qed.

(** X14: within one window the in-memory limiter behaves as a counter.  For a
    limit M > 0 and calls of weight 1 on one key without events, none made
    before the first and all less than a window after it, the i-th call
    (from 0) is allowed with remaining budget
    M - (i + 1) as long as i < M, and every later one is denied, with the
    delay counted from the first call. *)
Theorem one_window_counts_down l k M W c0 cs :
  redisClient l = None ->
  requestsOf (inMemoryStore l) k = [] ->
  0 < M ->
  Forall (fun c => callKey c = k /\ callMax c = M /\ callWindow c = W /\
                   callWeight c = 1 /\ callNow c0 <= callNow c < callNow c0 + W)
    (c0 :: cs) ->
  map snd (replay l (c0 :: cs)).1 = counterAnswers M W (callNow c0) 0 (c0 :: cs).
Proof.
  intros Hc Hempty HM Hps. rewrite replay_memory by exact Hc. cbn [fst].
  apply (replayMemory_counter k M W (callNow c0) (c0 :: cs) (inMemoryStore l) 0 HM Hps).
  - intros _. reflexivity.
  - rewrite Hempty. constructor.
  - rewrite Hempty. simpl. lia.
  - intros H. contradiction.
Qed.

Lemma one_window_counts_down_witness :
  let c0 := mkCall "admin:abc" 2 60000 1 1000 0 in
  let cs := [mkCall "admin:abc" 2 60000 1 1500 0; mkCall "admin:abc" 2 60000 1 2500 0] in
  map snd (replay freshLimiter (c0 :: cs)).1 = counterAnswers 2 60000 (callNow c0) 0 (c0 :: cs).
Proof.
  intros c0 cs.
  apply (one_window_counts_down freshLimiter "admin:abc" 2 60000 c0 cs).
  - reflexivity.
  - reflexivity.
  - lia.
  - unfold c0, cs. repeat constructor; simpl; lia.
Defined.

(** ** The window on the Redis path *)

(** A call leaves an empty sorted set empty, on its own key and on every
    other. *)
Lemma checkRateLimitRedis_keeps_empty key maxRequests windowMs weight' now rnd c k :
  zset_of c (redisKeyOf k) = [] ->
  zset_of (checkRateLimitRedis key maxRequests windowMs weight' now rnd c).2
    (redisKeyOf k) = [].
Proof.
  intros Hempty.
  pose proof (checkRateLimitRedis_spec key maxRequests windowMs weight' now rnd c) as S.
  cbv zeta in S.
  assert (default [] (<[redisKeyOf key :=
              pruneEntries (now - windowMs) (zset_of c (redisKeyOf key))]> (zsets c)
            !! redisKeyOf k) = []) as Hkept.
  { destruct (decide (redisKeyOf key = redisKeyOf k)) as [E | E].
    - rewrite E, lookup_insert_eq, Hempty. reflexivity.
    - rewrite lookup_insert_ne by exact E. exact Hempty. }
  unfold zset_of at 1.
  destruct (healthy 4 (faults c)); [destruct (maxRequests <? _)|].
  - destruct S as [_ ->]. exact Hkept.
  - destruct S as [_ ->]. exact Hkept.
  - destruct S as [_ [-> | ->]]; [exact Hempty | exact Hkept].
Qed.

(** On an empty sorted set a call whose weight fits the limit fails open. *)
Lemma checkRateLimitRedis_empty_allows key maxRequests windowMs weight' now rnd c :
  zset_of c (redisKeyOf key) = [] ->
  weight' <= maxRequests ->
  (checkRateLimitRedis key maxRequests windowMs weight' now rnd c).1
  = Returned (failOpen maxRequests windowMs now).
Proof.
  intros Hempty Hle.
  pose proof (checkRateLimitRedis_spec key maxRequests windowMs weight' now rnd c) as S.
  cbv zeta in S. rewrite Hempty in S. simpl in S.
  destruct (healthy 4 (faults c)); [|exact (proj1 S)].
  destruct (maxRequests <? _) eqn:E; [apply Z.ltb_lt in E; lia|].
  exact (proj1 S).
Qed.

Lemma replayRedis_all_allowed k cs : forall c,
  zset_of c (redisKeyOf k) = [] ->
  Forall (fun e => callKey e.1 = k -> callWeight e.1 <= callMax e.1 ->
            e.2 = Returned (failOpen (callMax e.1) (callWindow e.1) (callNow e.1)))
    (replayRedis c cs).1.
Proof.
  induction cs as [|a cs IH]; intros c Hempty; simpl; [constructor|].
  pose proof (checkRateLimitRedis_keeps_empty (callKey a) (callMax a) (callWindow a)
                (callWeight a) (callNow a) (callRnd a) c k Hempty) as Hnext.
  pose proof (checkRateLimitRedis_empty_allows (callKey a) (callMax a) (callWindow a)
                (callWeight a) (callNow a) (callRnd a) c) as Hallow.
  unfold performRedis.
  destruct (checkRateLimitRedis _ _ _ _ _ _ c) as [r c1]. simpl in Hnext, Hallow.
  specialize (IH c1 Hnext).
  destruct (replayRedis c1 cs) as [log c2]. simpl in *.
  constructor; [|exact IH].
  simpl. intros Hk Hle. apply Hallow; [rewrite Hk; exact Hempty | exact Hle].
Qed.

(** X15: the Redis path does not enforce the window.  On a key whose sorted
    set starts empty nothing is ever recorded, so every call of a run whose
    weight does not exceed its limit is allowed, with the whole limit as
    remaining budget, whatever the number of calls, their times and the
    faults of the connection. *)
Theorem redis_never_denies l c k cs :
  redisClient l = Some c ->
  zset_of c (redisKeyOf k) = [] ->
  Forall (fun e => callKey e.1 = k -> callWeight e.1 <= callMax e.1 ->
            e.2 = Returned (failOpen (callMax e.1) (callWindow e.1) (callNow e.1)))
    (replay l cs).1.
Proof.
  intros Hc Hempty. rewrite (replay_redis cs l c Hc). simpl.
  apply replayRedis_all_allowed. exact Hempty.
Qed.

Lemma redis_never_denies_witness :
  let c := {| zsets := ∅; expiry := ∅; faults := [] |} in
  let l := {| redisClient := Some c; initialized := true; inMemoryStore := ∅ |} in
  let cs := [mkCall "k" 2 1000 1 100 7; mkCall "other" 1 50 3 200 7;
             mkCall "k" 2 1000 1 400 7; mkCall "k" 2 1000 1 700 8;
             mkCall "k" 2 1000 1 900 7] in
  Forall (fun e => callKey e.1 = "k" -> callWeight e.1 <= callMax e.1 ->
            e.2 = Returned (failOpen (callMax e.1) (callWindow e.1) (callNow e.1)))
    (replay l cs).1.
Proof.
  intros c l cs.
  exact (redis_never_denies l c "k" cs eq_refl eq_refl).
Defined.

(** So four calls with a limit of two are all allowed within one second. *)
Example redis_window_exceeded :
  let c := {| zsets := ∅; expiry := ∅; faults := [] |} in
  let l := {| redisClient := Some c; initialized := true; inMemoryStore := ∅ |} in
  let cs := [mkCall "k" 2 1000 1 100 7; mkCall "k" 2 1000 1 400 7;
             mkCall "k" 2 1000 1 700 8; mkCall "k" 2 1000 1 900 7] in
  allowedWithin "k" 100 (100 + 1000) (replay l cs).1 = 4%nat.
Proof. vm_compute. reflexivity. Qed.

(** * Properties of the IP detection service *)

(** ** The address of a request is always valid *)

Lemma acceptable_Some o ip : acceptable o = Some ip -> isValidIP ip = true.
Proof.
  unfold acceptable. destruct o as [s|]; [|discriminate].
  destruct (negb (isEmpty s) && isValidIP s) eqn:E; [|discriminate].
  intros [= <-]. apply andb_prop in E. apply E.
Qed.

Lemma getClientIP_accepted req : isValidIP (getClientIP req) = true.
Proof.
  unfold getClientIP.
  repeat match goal with
  | |- context [match acceptable ?o with _ => _ end] =>
      destruct (acceptable o) as [ip|] eqn:?; [eapply acceptable_Some; eassumption|]
  end.
  cbv zeta.
  match goal with
  | |- context [if isValidIP ?a then _ else _] => destruct (isValidIP a) eqn:E
  end; [exact E | reflexivity].
Qed.


(** X17: the health report of the service cannot say degraded: its status is
    operational for every request. *)
Theorem handleIPDetectionHealth_operational req now :
  status (handleIPDetectionHealth req now) = "operational" /\
  detectedIP (handleIPDetectionHealth req now) = getClientIP req.
Proof.
  unfold handleIPDetectionHealth. simpl.
  rewrite getClientIP_accepted. split; reflexivity.
Qed.

(** ** What the patterns accept *)

Local Arguments String.append : simpl nomatch.

Lemma append_nil_r (s : string) : s +:+ "" = s.
Proof. induction s as [|c s IH]; simpl; [reflexivity | f_equal; exact IH]. Qed.

Lemma append_assoc (a b c : string) : (a +:+ b) +:+ c = a +:+ (b +:+ c).
Proof. induction a as [|x a IH]; simpl; [reflexivity | f_equal; exact IH]. Qed.

Lemma isEmpty_true s : isEmpty s = true <-> s = "".
Proof. destruct s; simpl; split; intros H; try reflexivity; discriminate. Qed.

(** The matcher finds a split of the string into a word of the pattern and
    a rest that the continuation accepts, exactly when there is one. *)
Lemma matchK_spec r : forall s k,
  matchK r s k = true <->
  exists w rest, s = w +:+ rest /\ lang r w /\ k rest = true.
Proof.
  induction r as [|c|lo hi|r1 IH1 r2 IH2|r1 IH1 r2 IH2]; intros s k; simpl.
  - split.
    + intros H. exists "", s. auto.
    + intros (w & rest & -> & -> & H). exact H.
  - split.
    + destruct s as [|a s']; [discriminate|].
      destruct (Ascii.eqb_spec a c) as [->|]; [|discriminate].
      intros H. exists (String c ""), s'. auto.
    + intros (w & rest & -> & -> & H). simpl. rewrite Ascii.eqb_refl. exact H.
  - split.
    + destruct s as [|a s']; [discriminate|].
      destruct ((charCode lo <=? charCode a) && (charCode a <=? charCode hi)) eqn:E;
        [|discriminate].
      apply andb_prop in E. destruct E as [E1 E2].
      apply Z.leb_le in E1. apply Z.leb_le in E2.
      intros H. exists (String a ""), s'. split; [reflexivity|]. split; [|exact H].
      exists a. auto.
    + intros (w & rest & -> & (a & -> & H1 & H2) & H). simpl.
      apply Z.leb_le in H1. apply Z.leb_le in H2. rewrite H1, H2. exact H.
  - rewrite IH1. split.
    + intros (w1 & rest1 & -> & L1 & H). apply IH2 in H.
      destruct H as (w2 & rest & -> & L2 & H).
      exists (w1 +:+ w2), rest. rewrite append_assoc. split; [reflexivity|].
      split; [|exact H]. exists w1, w2. auto.
    + intros (w & rest & -> & (w1 & w2 & -> & L1 & L2) & H).
      exists w1, (w2 +:+ rest). rewrite append_assoc. split; [reflexivity|].
      split; [exact L1|]. apply IH2. exists w2, rest. auto.
  - destruct (matchK r1 s k) eqn:E1.
    + apply IH1 in E1. destruct E1 as (w & rest & -> & L & H).
      split; [|reflexivity]. intros _. exists w, rest. auto.
    + rewrite IH2. split.
      * intros (w & rest & -> & L & H). exists w, rest. auto.
      * intros (w & rest & -> & [L | L] & H).
        -- assert (matchK r1 (w +:+ rest) k = true) as C
             by (apply IH1; exists w, rest; auto).
           rewrite C in E1. discriminate.
        -- exists w, rest. auto.
Qed.

Lemma testAnchored_spec r s : testAnchored r s = true <-> lang r s.
Proof.
  unfold testAnchored. rewrite matchK_spec. split.
  - intros (w & rest & -> & L & H). apply isEmpty_true in H. subst rest.
    rewrite append_nil_r. exact L.
  - intros L. exists s, "". rewrite append_nil_r. auto.
Qed.

Lemma charCode_inj a b : charCode a = charCode b -> a = b.
Proof.
  unfold charCode. intros H. apply N2Z.inj in H.
  rewrite <- (ascii_N_embedding a), <- (ascii_N_embedding b), H. reflexivity.
Qed.

Lemma ascii_eqb_charCode a b : Ascii.eqb a b = (charCode a =? charCode b).
Proof.
  destruct (Ascii.eqb_spec a b) as [->|Hne].
  - symmetry. apply Z.eqb_refl.
  - symmetry. apply Z.eqb_neq. intros H. apply Hne, charCode_inj, H.
Qed.

Ltac split_tests :=
  repeat match goal with
  | |- context [?a <=? ?b] => destruct (Z.leb_spec a b)
  | |- context [?a =? ?b] => destruct (Z.eqb_spec a b)
  end; simpl; try reflexivity; try lia.

(** The octet pattern accepts the numerals of one to three digits that
    write a number up to 255, and nothing else. *)
Lemma octetRegex_numeral o : testAnchored octetRegex o = octetNumeral o.
Proof.
  unfold testAnchored, octetNumeral, decimalValue.
  destruct o as [|a1 [|a2 [|a3 [|a4 rest]]]];
    cbn [octetRegex matchK RLit ROpt isEmpty String.length allDigits decimalValueFrom];
    unfold isDigit; rewrite ?ascii_eqb_charCode;
    change (charCode "0") with 48; change (charCode "1") with 49;
    change (charCode "2") with 50; change (charCode "4") with 52;
    change (charCode "5") with 53; change (charCode "9") with 57.
  - reflexivity.
  - generalize (charCode a1). intros x1. split_tests.
  - generalize (charCode a1) (charCode a2). intros x1 x2. split_tests.
  - generalize (charCode a1) (charCode a2) (charCode a3). intros x1 x2 x3. split_tests.
  - assert ((Z.of_nat (S (S (S (S (String.length rest))))) <=? 3) = false) as ->
      by (apply Z.leb_gt; lia).
    rewrite andb_false_r. simpl.
    generalize (charCode a1) (charCode a2) (charCode a3) (charCode a4).
    intros x1 x2 x3 x4. split_tests.
Qed.

Lemma lang_octetRegex o : lang octetRegex o <-> octetNumeral o = true.
Proof. rewrite <- testAnchored_spec, octetRegex_numeral. reflexivity. Qed.

Lemma lang_RLit s w : lang (RLit s) w <-> w = s.
Proof.
  revert w. induction s as [|c s IH]; intros w; simpl; [reflexivity|].
  split.
  - intros (w1 & w2 & -> & -> & H). apply IH in H. subst. reflexivity.
  - intros ->. exists (String c ""), s. split; [reflexivity|]. split; [reflexivity|].
    apply IH. reflexivity.
Qed.

Lemma ipv4Regex_dottedQuad s : testAnchored ipv4Regex s = true <-> dottedQuad s.
Proof.
  rewrite testAnchored_spec. unfold ipv4Regex, dottedQuad.
  cbn [RRep lang]. split.
  - intros (w & d & -> & (w1 & w' & -> & (a & p1 & -> & La & ->)
                                 & (w2 & w'' & -> & (b & p2 & -> & Lb & ->)
                                 & (w3 & e & -> & (c & p3 & -> & Lc & ->) & ->))) & Ld).
    apply lang_octetRegex in La, Lb, Lc, Ld.
    exists a, b, c, d. split; [|auto].
    rewrite append_nil_r, !append_assoc. reflexivity.
  - intros (a & b & c & d & -> & Ha & Hb & Hc & Hd).
    apply lang_octetRegex in Ha, Hb, Hc, Hd.
    exists (a +:+ "." +:+ b +:+ "." +:+ c +:+ "."), d.
    split; [rewrite !append_assoc; reflexivity|]. split; [|exact Hd].
    exists (a +:+ "."), (b +:+ "." +:+ c +:+ ".").
    split; [rewrite !append_assoc; reflexivity|].
    split; [exists a, "."; auto|].
    exists (b +:+ "."), (c +:+ ".").
    split; [rewrite !append_assoc; reflexivity|].
    split; [exists b, "."; auto|].
    exists (c +:+ "."), "".
    split; [rewrite append_nil_r; reflexivity|].
    split; [exists c, "."; auto | reflexivity].
Qed.

Lemma lang_hexRegex w :
  lang hexRegex w <-> exists a, w = String a "" /\ isHexDigit a = true.
Proof.
  unfold hexRegex, isHexDigit. cbn [lang].
  change (charCode "0") with 48. change (charCode "9") with 57.
  change (charCode "a") with 97. change (charCode "f") with 102.
  change (charCode "A") with 65. change (charCode "F") with 70.
  split.
  - intros [(a & -> & H) | [(a & -> & H) | (a & -> & H)]]; exists a;
      (split; [reflexivity|]); cbv zeta;
      destruct H as [H1 H2]; apply Z.leb_le in H1; apply Z.leb_le in H2;
      rewrite H1, H2; simpl; rewrite ?orb_true_r; reflexivity.
  - intros (a & -> & H). cbv zeta in H.
    apply orb_prop in H. destruct H as [H | H]; [apply orb_prop in H; destruct H as [H | H]|];
      apply andb_prop in H; destruct H as [H1 H2];
      apply Z.leb_le in H1; apply Z.leb_le in H2; eauto 7.
Qed.

Lemma lang_hexGroup w : lang (RUpTo4 hexRegex) w <-> hexGroup w = true.
Proof.
  unfold RUpTo4, ROpt, hexGroup. cbn [lang]. setoid_rewrite lang_hexRegex. split.
  - intros (w1 & w2 & -> & (a1 & -> & H1) & [(w3 & w4 & -> & (a2 & -> & H2) & [(w5 & w6 & -> & (a3 & -> & H3) & [(a4 & -> & H4) | ->]) | ->]) | ->]);
      simpl; rewrite ?H1, ?H2, ?H3, ?H4; reflexivity.
  - destruct w as [|a1 [|a2 [|a3 [|a4 [|a5 rest]]]]];
      [simpl; discriminate | simpl | simpl | simpl | simpl |].
    + rewrite andb_true_r. intros H1.
      exists (String a1 ""), "". repeat split; eauto.
    + rewrite andb_true_r. intros H. apply andb_prop in H. destruct H as [H1 H2].
      exists (String a1 ""), (String a2 ""). split; [reflexivity|]. split; [eauto|].
      left. exists (String a2 ""), "". repeat split; eauto.
    + rewrite andb_true_r. intros H. apply andb_prop in H. destruct H as [H1 H].
      apply andb_prop in H. destruct H as [H2 H3].
      exists (String a1 ""), (String a2 (String a3 "")). split; [reflexivity|].
      split; [eauto|].
      left. exists (String a2 ""), (String a3 ""). split; [reflexivity|]. split; [eauto|].
      left. exists (String a3 ""), "". repeat split; eauto.
    + rewrite andb_true_r. intros H. apply andb_prop in H. destruct H as [H1 H].
      apply andb_prop in H. destruct H as [H2 H]. apply andb_prop in H. destruct H as [H3 H4].
      exists (String a1 ""), (String a2 (String a3 (String a4 ""))). split; [reflexivity|].
      split; [eauto|].
      left. exists (String a2 ""), (String a3 (String a4 "")). split; [reflexivity|].
      split; [eauto|].
      left. exists (String a3 ""), (String a4 ""). split; [reflexivity|]. split; [eauto|].
      left. eauto.
    + cbn [String.length].
      assert ((Z.of_nat (S (S (S (S (S (String.length rest)))))) <=? 4) = false) as ->
        by (apply Z.leb_gt; lia).
      rewrite andb_false_r. discriminate.
Qed.

Ltac string_norm :=
  repeat first [rewrite append_assoc | rewrite append_nil_r | progress simpl].

Lemma lang_RRep_groups n w :
  lang (RRep n (RSeq (RUpTo4 hexRegex) (RChar ":"))) w <->
  exists gs, length gs = n /\ Forall (fun g => hexGroup g = true) gs /\
             w = fold_right (fun g acc => g +:+ ":" +:+ acc) "" gs.
Proof.
  revert w. induction n as [|n IH]; intros w; cbn [RRep].
  - cbn [lang]. split.
    + intros ->. exists []. repeat split. constructor.
    + intros (gs & Hlen & _ & ->). destruct gs; [reflexivity | discriminate].
  - change (lang (RSeq (RSeq (RUpTo4 hexRegex) (RChar ":"))
                    (RRep n (RSeq (RUpTo4 hexRegex) (RChar ":")))) w)
      with (exists w1 w2, w = w1 +:+ w2 /\
              (exists g p, w1 = g +:+ p /\ lang (RUpTo4 hexRegex) g /\ p = ":") /\
              lang (RRep n (RSeq (RUpTo4 hexRegex) (RChar ":"))) w2).
    split.
    + intros (w1 & w2 & -> & (g & p & -> & Hg & ->) & H).
      apply IH in H. destruct H as (gs & Hlen & Hgs & ->).
      apply lang_hexGroup in Hg.
      exists (g :: gs). split; [simpl; congruence|]. split; [constructor; assumption|].
      simpl. rewrite append_assoc. reflexivity.
    + intros (gs & Hlen & Hgs & ->). destruct gs as [|g gs]; [discriminate|].
      inversion Hgs; subst. injection Hlen as Hlen.
      exists (g +:+ ":"), (fold_right (fun g acc => g +:+ ":" +:+ acc) "" gs).
      split; [simpl; rewrite append_assoc; reflexivity|].
      split; [exists g, ":"; repeat split; apply lang_hexGroup; assumption|].
      apply IH. exists gs. auto.
Qed.

Lemma ipv6Regex_spec s :
  testAnchored ipv6Regex s = true <-> colonOctuple s \/ s = "::1" \/ s = "::".
Proof.
  rewrite testAnchored_spec. unfold ipv6Regex, colonOctuple.
  change (lang (RAlt (RSeq (RRep 7 (RSeq (RUpTo4 hexRegex) (RChar ":"))) (RUpTo4 hexRegex))
                  (RAlt (RLit "::1") (RLit "::"))) s)
    with ((exists w1 w2, s = w1 +:+ w2 /\
             lang (RRep 7 (RSeq (RUpTo4 hexRegex) (RChar ":"))) w1 /\
             lang (RUpTo4 hexRegex) w2) \/
          (lang (RLit "::1") s \/ lang (RLit "::") s)).
  rewrite !lang_RLit.
  split; (intros [H | H]; [left | right; exact H]).
  - destruct H as (w1 & g8 & -> & H & Hg8).
    apply lang_RRep_groups in H. destruct H as (gs & Hlen & Hgs & ->).
    apply lang_hexGroup in Hg8.
    destruct gs as [|g1 [|g2 [|g3 [|g4 [|g5 [|g6 [|g7 [|]]]]]]]]; try discriminate.
    exists g1, g2, g3, g4, g5, g6, g7, g8. split.
    + string_norm. reflexivity.
    + rewrite List.Forall_forall in *. intros g Hg.
      simpl in Hg. simpl in Hgs.
      repeat (destruct Hg as [<- | Hg]; [auto 10|]). contradiction.
  - destruct H as (g1 & g2 & g3 & g4 & g5 & g6 & g7 & g8 & -> & Hgs).
    exists (fold_right (fun g acc => g +:+ ":" +:+ acc) "" [g1; g2; g3; g4; g5; g6; g7]), g8.
    split; [string_norm; reflexivity|].
    rewrite List.Forall_forall in Hgs.
    split.
    + apply lang_RRep_groups. exists [g1; g2; g3; g4; g5; g6; g7].
      split; [reflexivity|]. split; [|reflexivity].
      rewrite List.Forall_forall. intros g Hg. apply Hgs. simpl in *. tauto.
    + apply lang_hexGroup, Hgs. simpl. tauto.
Qed.

Lemma string_eqb_true a b : String.eqb a b = true <-> a = b.
Proof. apply String.eqb_eq. Qed.

(** X18: [isValidIP] accepts exactly the strings that are not empty and that,
    once trimmed, are a dotted quad of numerals up to 255 of at most three
    digits, eight colon-separated groups of one to four hexadecimal
    digits, "::1", "::" or "localhost".  Every other shortened IPv6
    notation is refused. *)
Theorem isValidIP_accepts s :
  isValidIP s = true <->
  s <> "" /\
  (dottedQuad (trim s) \/ colonOctuple (trim s) \/
   trim s = "::1" \/ trim s = "::" \/ trim s = "localhost").
Proof.
  unfold isValidIP. destruct s as [|c s'].
  - simpl. split; [discriminate | intros [H _]; contradiction].
  - cbn [isEmpty]. cbv zeta. set (t := trim (String c s')).
    destruct (testAnchored ipv4Regex t) eqn:E4.
    { apply ipv4Regex_dottedQuad in E4. split; [|reflexivity].
      intros _. split; [discriminate | auto]. }
    destruct (testAnchored ipv6Regex t) eqn:E6.
    { apply ipv6Regex_spec in E6. split; [|reflexivity].
      intros _. split; [discriminate | tauto]. }
    assert (~ dottedQuad t) as N4.
    { intros H. apply ipv4Regex_dottedQuad in H. congruence. }
    assert (~ (colonOctuple t \/ t = "::1" \/ t = "::")) as N6.
    { intros H. apply ipv6Regex_spec in H. congruence. }
    destruct (String.eqb t "localhost") eqn:EL.
    { apply string_eqb_true in EL. split; [|reflexivity].
      intros _. split; [discriminate | tauto]. }
    assert (t <> "localhost") as NL.
    { intros H. apply string_eqb_true in H. congruence. }
    destruct (String.eqb t "127.0.0.1") eqn:E1.
    { apply string_eqb_true in E1. rewrite E1 in E4. vm_compute in E4. discriminate. }
    destruct (String.eqb t "::1") eqn:E2.
    { apply string_eqb_true in E2. rewrite E2 in E6. vm_compute in E6. discriminate. }
    simpl. split; [discriminate|]. intros [_ H]. tauto.
Qed.

(** ** Which address wins *)

Lemma isValidIP_not_empty s : isValidIP s = true -> isEmpty s = false.
Proof. unfold isValidIP. destruct s; [discriminate | reflexivity]. Qed.

(** X19: A client decides its own address: when the first entry of the
    x-client-ip header is a valid address, that entry, trimmed, is the
    answer, whatever the other headers and the socket say. *)
Theorem getClientIP_header_wins req h :
  headers req !! "x-client-ip" = Some h ->
  isValidIP (trim (firstOfSplit h)) = true ->
  getClientIP req = trim (firstOfSplit h).
Proof.
  intros Hh Hv. unfold getClientIP. rewrite Hh. simpl.
  rewrite (isValidIP_not_empty _ Hv), Hv. reflexivity.
Qed.

Lemma getClientIP_header_wins_witness :
  getClientIP {| headers := {[ "x-client-ip" := " 203.0.113.7 , 10.0.0.1" ]};
                 socketRemoteAddress := Some "198.51.100.2";
                 connectionRemoteAddress := None;
                 reqIp := Some "198.51.100.2" |}
  = trim (firstOfSplit " 203.0.113.7 , 10.0.0.1").
Proof.
  apply getClientIP_header_wins; reflexivity.
Defined.

Lemma startsWith_append p s : startsWith p (p +:+ s) = true.
Proof.
  induction p as [|c p IH]; simpl; [reflexivity|].
  rewrite Ascii.eqb_refl. exact IH.
Qed.

(** X20: without proxy headers the socket address is used, and an IPv4 address
    mapped into IPv6 is unwrapped: for the remote address "::ffff:" followed
    by a valid address, the answer is that address. *)
Theorem getClientIP_unwraps_mapped_address req a :
  headers req = ∅ ->
  socketRemoteAddress req = Some ("::ffff:" +:+ a) ->
  isValidIP a = true ->
  getClientIP req = a.
Proof.
  intros Hh Hs Hv. unfold getClientIP. rewrite Hh, Hs, !lookup_empty. simpl.
  rewrite ?Ascii.eqb_refl. simpl. rewrite Hv. reflexivity.
Qed.

Lemma getClientIP_unwraps_mapped_address_witness :
  getClientIP {| headers := ∅;
                 socketRemoteAddress := Some ("::ffff:" +:+ "192.0.2.33");
                 connectionRemoteAddress := None;
                 reqIp := None |}
  = "192.0.2.33".
Proof.
  apply getClientIP_unwraps_mapped_address; reflexivity.
Defined.

(** ** The fingerprint *)

Lemma toInt32_range x : - 2 ^ 31 <= toInt32 x < 2 ^ 31.
Proof.
  unfold toInt32.
  pose proof (Z.mod_pos_bound (x + 2 ^ 31) (2 ^ 32) ltac:(lia)). lia.
Qed.

Lemma toInt32_congruent x y :
  (x - y) mod 2 ^ 32 = 0 -> toInt32 x = toInt32 y.
Proof.
  unfold toInt32. intros H.
  apply Z.mod_divide in H; [|lia]. destruct H as [q Hq].
  replace (x + 2 ^ 31) with (y + 2 ^ 31 + q * 2 ^ 32) by lia.
  rewrite Z.mod_add by lia. reflexivity.
Qed.

Lemma toInt32_difference x : (toInt32 x - x) mod 2 ^ 32 = 0.
Proof.
  unfold toInt32.
  rewrite (Z.mod_eq (x + 2 ^ 31) (2 ^ 32)) by lia.
  replace (x + 2 ^ 31 - 2 ^ 32 * ((x + 2 ^ 31) / 2 ^ 32) - 2 ^ 31 - x)
    with ((- ((x + 2 ^ 31) / 2 ^ 32)) * 2 ^ 32) by lia.
  apply Z.mod_mul. lia.
Qed.

Lemma hashLoop_polynomial s : forall h x,
  h = toInt32 x -> hashLoop h s = toInt32 (polynomial31 x s).
Proof.
  induction s as [|c s IH]; intros h x Hh; simpl; [exact Hh|].
  apply IH. apply toInt32_congruent.
  rewrite Z.shiftl_mul_pow2 by lia.
  pose proof (toInt32_difference (h * 2 ^ 5)) as H1.
  pose proof (toInt32_difference x) as H2. rewrite <- Hh in H2.
  apply Z.mod_divide in H1; [|lia]. apply Z.mod_divide in H2; [|lia].
  destruct H1 as [q1 H1]. destruct H2 as [q2 H2].
  apply Z.mod_divide; [lia|]. exists (q1 + 31 * q2). lia.
Qed.

(** X21: the hash of the fingerprint is the polynomial hash with coefficient 31
    of the string ip:userAgent, reduced to a signed 32-bit integer; a
    missing or empty user agent counts as "unknown". *)
Theorem generateClientFingerprint_hash ip userAgent :
  generateClientFingerprint ip userAgent =
    toString36 (Z.abs (toInt32
      (polynomial31 0 (ip +:+ ":" +:+ default "unknown" (orElse userAgent None))))).
Proof.
  unfold generateClientFingerprint. cbv zeta.
  rewrite (hashLoop_polynomial _ 0 0 eq_refl). reflexivity.
Qed.

Lemma below36 m : 0 <= m < 36 -> In m (map Z.of_nat (seq 0 36)).
Proof.
  intros Hm. apply in_map_iff. exists (Z.to_nat m). split; [lia|]. apply in_seq. lia.
Qed.

Lemma digit36_value m : 0 <= m < 36 -> digitValue36 (digit36 m) = m.
Proof.
  intros Hm. apply Z.eqb_eq.
  assert (forallb (fun m => digitValue36 (digit36 m) =? m) (map Z.of_nat (seq 0 36)) = true)
    as H by (vm_compute; reflexivity).
  rewrite forallb_forall in H. apply H, below36, Hm.
Qed.

Lemma digit36_shape m :
  0 <= m < 36 ->
  (isDigit (digit36 m)
   || ((97 <=? charCode (digit36 m)) && (charCode (digit36 m) <=? 122))) = true.
Proof.
  intros Hm.
  assert (forallb (fun m => isDigit (digit36 m)
                            || ((97 <=? charCode (digit36 m))
                                && (charCode (digit36 m) <=? 122)))
            (map Z.of_nat (seq 0 36)) = true)
    as H by (vm_compute; reflexivity).
  rewrite forallb_forall in H. apply H, below36, Hm.
Qed.

Lemma parse36From_shift s : forall acc,
  parse36From acc s = acc * 36 ^ Z.of_nat (String.length s) + parse36From 0 s.
Proof.
  induction s as [|c s IH]; intros acc; cbn [parse36From String.length].
  - simpl. lia.
  - rewrite (IH (36 * acc + digitValue36 c)), (IH (36 * 0 + digitValue36 c)).
    rewrite Nat2Z.inj_succ, Z.pow_succ_r by lia. lia.
Qed.

Lemma digits36_parse fuel : forall n acc,
  0 <= n < 36 ^ Z.of_nat fuel ->
  parse36From 0 (digits36 fuel n acc)
  = n * 36 ^ Z.of_nat (String.length acc) + parse36From 0 acc.
Proof.
  induction fuel as [|fuel IH]; intros n acc Hn; cbn [digits36].
  - simpl in Hn. assert (n = 0) as -> by lia. lia.
  - destruct (Z.eqb_spec n 0) as [->|Hne]; [lia|].
    rewrite Nat2Z.inj_succ, Z.pow_succ_r in Hn by lia.
    rewrite IH by (split; [apply Z.div_pos; lia | apply Z.div_lt_upper_bound; lia]).
    cbn [String.length parse36From].
    rewrite parse36From_shift.
    rewrite digit36_value by (apply Z.mod_pos_bound; lia).
    rewrite Nat2Z.inj_succ, Z.pow_succ_r by lia.
    pose proof (Z.div_mod n 36 ltac:(lia)). nia.
Qed.

Lemma digits36_length fuel : forall n acc k,
  0 <= n < 36 ^ Z.of_nat k ->
  (String.length (digits36 fuel n acc) <= String.length acc + k)%nat.
Proof.
  induction fuel as [|fuel IH]; intros n acc k Hn; cbn [digits36]; [lia|].
  destruct (Z.eqb_spec n 0) as [->|Hne]; [lia|].
  destruct k as [|k]; [simpl in Hn; lia|].
  rewrite Nat2Z.inj_succ, Z.pow_succ_r in Hn by lia.
  specialize (IH (n / 36) (String (digit36 (n mod 36)) acc) k).
  cbn [String.length] in IH.
  assert (0 <= n / 36 < 36 ^ Z.of_nat k)
    by (split; [apply Z.div_pos; lia | apply Z.div_lt_upper_bound; lia]).
  specialize (IH ltac:(assumption)). lia.
Qed.

Lemma digits36_shape fuel : forall n acc,
  0 <= n -> allDigits36 acc = true -> allDigits36 (digits36 fuel n acc) = true.
Proof.
  induction fuel as [|fuel IH]; intros n acc Hn Hacc; cbn [digits36]; [exact Hacc|].
  destruct (Z.eqb_spec n 0) as [->|Hne]; [exact Hacc|].
  apply IH; [apply Z.div_pos; lia|].
  cbn [allDigits36]. rewrite Hacc, andb_true_r.
  apply digit36_shape. apply Z.mod_pos_bound. lia.
Qed.

Lemma digits36_not_empty fuel n acc :
  n <> 0 -> isEmpty (digits36 (S fuel) n acc) = false.
Proof.
  intros Hne. cbn [digits36]. destruct (Z.eqb_spec n 0) as [|_]; [contradiction|].
  generalize (n / 36) (String (digit36 (n mod 36)) acc) (eq_refl : isEmpty (String (digit36 (n mod 36)) acc) = false).
  clear. induction fuel as [|fuel IH]; intros m acc Hacc; cbn [digits36]; [exact Hacc|].
  destruct (m =? 0); [exact Hacc|]. apply IH. reflexivity.
Qed.

Lemma toString36_parse n : 0 <= n -> parse36 (toString36 n) = n.
Proof.
  intros Hn. unfold toString36, parse36.
  destruct (Z.eqb_spec n 0) as [->|Hne]; [reflexivity|].
  rewrite digits36_parse; [simpl; lia|].
  split; [lia|].
  rewrite Nat2Z.inj_succ, Z2Nat.id by apply Z.log2_nonneg.
  pose proof (Z.log2_spec n ltac:(lia)) as [_ Hlt].
  assert (2 ^ Z.succ (Z.log2 n) <= 36 ^ Z.succ (Z.log2 n)); [|lia].
  apply Z.pow_le_mono_l. lia.
Qed.

(** X22: the fingerprint is a numeral of base 36: between one and six of the
    digits 0-9 and a-z, and read back in base 36 it gives the absolute
    value of the hash. *)
Theorem generateClientFingerprint_numeral ip userAgent :
  let data := ip +:+ ":" +:+ default "unknown" (orElse userAgent None) in
  let fp := generateClientFingerprint ip userAgent in
  (1 <= String.length fp <= 6)%nat /\
  allDigits36 fp = true /\
  parse36 fp = Z.abs (hashLoop 0 data).
Proof.
  intros data fp. subst fp. unfold generateClientFingerprint. cbv zeta. fold data.
  assert (0 <= Z.abs (hashLoop 0 data) <= 2 ^ 31) as Hr.
  { rewrite (hashLoop_polynomial _ 0 0 eq_refl).
    pose proof (toInt32_range (polynomial31 0 data)). lia. }
  generalize dependent (Z.abs (hashLoop 0 data)). intros n Hn.
  split; [|split].
  - unfold toString36. destruct (Z.eqb_spec n 0) as [->|Hne]; [simpl; lia|].
    split.
    + pose proof (digits36_not_empty (Z.to_nat (Z.log2 n)) n "" Hne) as H.
      destruct (digits36 _ n ""); [discriminate | simpl; lia].
    + pose proof (digits36_length (S (Z.to_nat (Z.log2 n))) n "" 6) as H.
      simpl String.length in H. apply H. change (36 ^ Z.of_nat 6) with 2176782336.
      change (2 ^ 31) with 2147483648 in Hn. lia.
  - unfold toString36. destruct (Z.eqb_spec n 0) as [->|Hne]; [reflexivity|].
    apply digits36_shape; [lia | reflexivity].
  - apply toString36_parse. lia.
Qed.

(** ** Private addresses *)

Lemma lang_wordsOf r : forall w, lang r w <-> In w (wordsOf r).
Proof.
  induction r as [|c|lo hi|r1 IH1 r2 IH2|r1 IH1 r2 IH2]; intros w; cbn [lang wordsOf].
  - simpl. split; [auto | intros [H | []]; auto].
  - simpl. split; [auto | intros [H | []]; auto].
  - rewrite in_map_iff. unfold charCode. split.
    + intros (a & -> & H1 & H2). exists (nat_of_ascii a).
      rewrite ascii_nat_embedding. split; [reflexivity|].
      apply in_seq. unfold nat_of_ascii. lia.
    + intros (n & <- & Hn). apply in_seq in Hn. exists (ascii_of_nat n).
      split; [reflexivity|].
      assert (n < 256)%nat as Hlt.
      { pose proof (N_ascii_bounded hi). unfold nat_of_ascii in Hn. lia. }
      pose proof (nat_ascii_embedding n Hlt) as He. unfold nat_of_ascii in He, Hn. lia.
  - rewrite in_flat_map. split.
    + intros (w1 & w2 & -> & H1 & H2). exists w1. split; [apply IH1, H1|].
      apply in_map_iff. exists w2. split; [reflexivity | apply IH2, H2].
    + intros (w1 & H1 & H). apply in_map_iff in H. destruct H as (w2 & <- & H2).
      exists w1, w2. split; [reflexivity|]. split; [apply IH1, H1 | apply IH2, H2].
  - rewrite in_app_iff, IH1, IH2. reflexivity.
Qed.

Lemma startsWith_spec w : forall s,
  startsWith w s = true <-> exists rest, s = w +:+ rest.
Proof.
  induction w as [|c w IH]; intros s; simpl.
  - split; [intros _; exists s; reflexivity | reflexivity].
  - destruct s as [|a s]; [split; [discriminate | intros (rest & H); discriminate]|].
    destruct (Ascii.eqb_spec c a) as [->|Hne]; simpl.
    + rewrite IH. split; intros (rest & H); exists rest; congruence.
    + split; [discriminate | intros (rest & [= H _]); congruence].
Qed.

Lemma startsWith_extend w p rest :
  startsWith w p = true -> startsWith w (p +:+ rest) = true.
Proof.
  rewrite !startsWith_spec. intros (t & ->). exists (t +:+ rest).
  apply append_assoc.
Qed.

Lemma startsWith_either w : forall p rest,
  startsWith w (p +:+ rest) = true ->
  startsWith w p = true \/ startsWith p w = true.
Proof.
  induction w as [|c w IH]; intros p rest; simpl; [auto|].
  destruct p as [|a p]; simpl; [auto|].
  destruct (Ascii.eqb c a) eqn:E; simpl; [|discriminate].
  rewrite Ascii.eqb_sym, E. simpl. apply IH.
Qed.

Lemma range_test_word (range : regex * bool) s :
  (if range.2 then testAnchored range.1 s else testPrefix range.1 s) = true ->
  exists w, In w (wordsOf range.1) /\ startsWith w s = true.
Proof.
  destruct range as [r anchored]. simpl. destruct anchored.
  - rewrite testAnchored_spec, lang_wordsOf. intros H. exists s. split; [exact H|].
    apply startsWith_spec. exists "". symmetry. apply append_nil_r.
  - unfold testPrefix. rewrite matchK_spec. intros (w & rest & -> & L & _).
    exists w. split; [apply lang_wordsOf, L|]. apply startsWith_spec. eauto.
Qed.

Lemma settled_decides p b :
  settled p b = true -> forall rest, isPrivateIP (p +:+ rest) = b.
Proof.
  unfold settled, isPrivateIP. intros H rest. destruct b.
  - apply existsb_exists in H. destruct H as (range & Hin & H).
    apply andb_prop in H. destruct H as [Hpre H].
    apply existsb_exists in H. destruct H as (w & Hw & Hs).
    apply existsb_exists. exists range. split; [exact Hin|].
    destruct range as [r anchored]. simpl in *. destruct anchored; [discriminate|].
    unfold testPrefix. apply matchK_spec.
    apply (startsWith_extend _ _ rest) in Hs. apply startsWith_spec in Hs.
    destruct Hs as (t & Ht). exists w, t. split; [exact Ht|].
    split; [apply lang_wordsOf, Hw | reflexivity].
  - apply not_true_is_false. intros Ht.
    apply existsb_exists in Ht. destruct Ht as (range & Hin & Ht).
    apply range_test_word in Ht. destruct Ht as (w & Hw & Hs).
    rewrite forallb_forall in H. specialize (H range Hin).
    rewrite forallb_forall in H. specialize (H w Hw).
    apply andb_prop in H. destruct H as [H1 H2].
    apply startsWith_either in Hs. destruct Hs as [Hs | Hs]; rewrite Hs in *; discriminate.
Qed.

Lemma octets_settled :
  forallb (fun a =>
    forallb (fun b =>
      settled (decimalNumeral a +:+ "." +:+ decimalNumeral b +:+ ".") (privateRange a b))
      (seq 0 256))
    (seq 0 256) = true.
Proof. vm_compute. reflexivity. Qed.

(** X23: on an IPv4 address written without leading zeros, [isPrivateIP]
    answers by the first two octets alone, and says yes exactly for
    127.x, 10.x, 172.16 to 172.31, 192.168 and 169.254. *)
Theorem isPrivateIP_dotted a b rest :
  (a < 256)%nat -> (b < 256)%nat ->
  isPrivateIP (decimalNumeral a +:+ "." +:+ decimalNumeral b +:+ "." +:+ rest)
  = privateRange a b.
Proof.
  intros Ha Hb.
  pose proof octets_settled as H. rewrite forallb_forall in H.
  specialize (H a ltac:(apply in_seq; lia)).
  rewrite forallb_forall in H. specialize (H b ltac:(apply in_seq; lia)).
  pose proof (settled_decides _ _ H rest) as Hd.
  rewrite <- Hd. f_equal. string_norm. reflexivity.
Qed.

Lemma isPrivateIP_dotted_witness :
  isPrivateIP (decimalNumeral 172 +:+ "." +:+ decimalNumeral 20 +:+ "." +:+ "7.9")
  = privateRange 172 20.
Proof. apply isPrivateIP_dotted; lia. Defined.

(** * Properties of the configuration and of the callers *)

Lemma trimStart_head s :
  match trimStart s with
  | EmptyString => True
  | String c _ => isWhiteSpace c = false
  end.
Proof.
  induction s as [|c s IH]; simpl; [exact I|].
  destruct (isWhiteSpace c) eqn:E; [exact IH | exact E].
Qed.

Lemma trimEnd_idempotent s : trimEnd (trimEnd s) = trimEnd s.
Proof.
  induction s as [|c s IH]; simpl; [reflexivity|].
  destruct (trimEnd s) as [|d t] eqn:E.
  - destruct (isWhiteSpace c) eqn:Ec; simpl; [reflexivity|]. rewrite Ec. reflexivity.
  - cbn [trimEnd] in *. rewrite IH. reflexivity.
Qed.

Lemma trimEnd_head c s :
  isWhiteSpace c = false -> exists t, trimEnd (String c s) = String c t.
Proof.
  intros Hc. simpl. destruct (trimEnd s); [rewrite Hc|]; eauto.
Qed.

Lemma trim_idempotent s : trim (trim s) = trim s.
Proof.
  unfold trim. pose proof (trimStart_head s) as H.
  destruct (trimStart s) as [|c t] eqn:E; [reflexivity|].
  destruct (trimEnd_head c t H) as (u & Hu). rewrite Hu.
  cbn [trimStart]. rewrite H, <- Hu. apply trimEnd_idempotent.
Qed.

(** X24: the origins read from CORS_ORIGINS are never empty and carry no white
    space at either end; and every origin is admitted exactly when the
    variable has no field that is not blank, as when it is not set. *)
Theorem corsOrigins_clean CORS_ORIGINS :
  Forall (fun o => o <> "" /\ trim o = o) (corsOrigins CORS_ORIGINS) /\
  (corsOriginOption (corsOrigins CORS_ORIGINS) = AnyOrigin <->
   Forall (fun field => trim field = "")
     (splitOn "," (default "" (orElse CORS_ORIGINS None)))).
Proof.
  unfold corsOrigins. generalize (splitOn "," (default "" (orElse CORS_ORIGINS None))).
  intros fields. split.
  - apply List.Forall_forall. intros o Ho. apply filter_In in Ho.
    destruct Ho as [Ho Hne]. apply in_map_iff in Ho. destruct Ho as (f & <- & _).
    split; [|apply trim_idempotent].
    intros E. rewrite E in Hne. discriminate.
  - induction fields as [|f fields IH]; simpl.
    + split; [constructor | reflexivity].
    + destruct (trim f) as [|c t] eqn:E; simpl.
      * rewrite IH. split; [intros H; constructor; assumption|].
        intros H. inversion H. assumption.
      * unfold corsOriginOption. cbn [length].
        assert ((0 <? Z.of_nat (S (length (List.filter (fun s => negb (isEmpty s))
                                             (map trim fields))))) = true) as ->
          by (apply Z.ltb_lt; lia).
        split; [discriminate|]. intros H. inversion H. congruence.
Qed.

(** X25: the global middleware never takes its catch branch: with the limit
    of 100 and the default weight the check returns a Decision, and the
    request is answered with 429 and the retry hint exactly when the
    Decision denies, and passed on with the remaining budget otherwise. *)
Theorem rateLimitMiddleware_answers l decodedUid ip remoteAddress now rnd :
  exists d l',
    checkRateLimit l (rateLimitIdentifier decodedUid ip remoteAddress)
      100 60000 1 now rnd = (Returned d, l') /\
    rateLimitMiddleware l decodedUid ip remoteAddress now rnd
    = (if allowed d then Next (Some (remaining d)) else TooManyRequests (retryAfter d), l').
Proof.
  unfold rateLimitMiddleware. cbv zeta.
  destruct (checkRateLimit l (rateLimitIdentifier decodedUid ip remoteAddress)
              100 60000 1 now rnd) as [[d|e] l'] eqn:E.
  - exists d, l'. split; [reflexivity|]. destruct (allowed d); reflexivity.
  - apply thrown_call_changes_nothing in E. lia.
Qed.
